(** * Smale's alpha theory ([smale/smale.py]): a shallow embedding

    The module computes Smale's beta, gamma and alpha at a candidate point
    and then hands the point to an external Newton solver.

    Numbers.  Python floats and complex numbers are embedded in exact
    arithmetic: a float is a real number, a complex number a pair of reals,
    and a float met where a complex is expected is promoted with a zero
    imaginary part (the promotion Python itself performs).  Rounding,
    overflow, infinities and NaN are therefore outside the model; every
    statement below is about the algorithm in exact arithmetic.  Division
    follows Python scalars under Python 3: true division, and a zero divisor
    raises [ZeroDivisionError].

    Effects.  A call returns a trace of the observable events it caused
    (evaluations of the callables it was given, warnings, the call of the
    external solver) together with a value or the exception it raised. *)

From Stdlib Require Import String Reals Lra Lia ZArith List.
Import ListNotations.

Open Scope R_scope.

(** ** Complex values *)

Record C : Type := mkC { Re : R; Im : R }.

Definition C0 : C := mkC 0 0.
Definition RtoC (x : R) : C := mkC x 0.

Definition Cmul (z w : C) : C :=
  mkC (Re z * Re w - Im z * Im w) (Re z * Im w + Im z * Re w).

Definition Cnorm2 (z : C) : R := Re z * Re z + Im z * Im z.

(** The quotient of two complex numbers; meaningful for a nonzero divisor. *)
Definition Cdiv (z w : C) : C :=
  mkC ((Re z * Re w + Im z * Im w) / Cnorm2 w)
      ((Im z * Re w - Re z * Im w) / Cnorm2 w).

(** [numpy.abs]: the modulus, a real number. *)
Definition np_abs (z : C) : R := sqrt (Cnorm2 z).

Definition C_eq_dec (z w : C) : {z = w} + {z <> w}.
Proof.
  destruct z as [a b], w as [c d].
  destruct (Req_dec_T a c) as [Hac | Hac].
  - destruct (Req_dec_T b d) as [Hbd | Hbd].
    + left. now rewrite Hac, Hbd.
    + right. intros H. apply Hbd. now inversion H.
  - right. intros H. apply Hac. now inversion H.
Defined.

Definition Csub (z w : C) : C := mkC (Re z - Re w) (Im z - Im w).

(** ** Exceptions and results *)

Inductive exn : Type :=
| ZeroDivisionError
| ValueError
| IndexError
| TypeError
| UserError (code : nat).   (* an exception raised by a supplied callable *)

Inductive res (A : Type) : Type :=
| Ok (a : A)
| Raise (e : exn).
Arguments Ok {A} a.
Arguments Raise {A} e.

(** A Python callable [g(x, a, b, ...)]: it receives the argument tuple and
    returns a number or raises. *)
Definition callable : Type := list C -> res C.

(** ** Events and the trace monad *)

Inductive callee : Type :=
| TargetF              (* the function [f] *)
| Deriv (k : nat).     (* the entry [df[k]] *)

Inductive warning : Type :=
| NotEnoughDerivatives       (* 'not enough derivatives provided for smale' *)
| NotApproximateSolution.    (* 'the estimate may not be an approximate
                                solution to the function' *)

Definition warning_message (w : warning) : string :=
  match w with
  | NotEnoughDerivatives => "not enough derivatives provided for smale"
  | NotApproximateSolution =>
      "the estimate may not be an approximate solution to the function"
  end.

Inductive event : Type :=
| EvCall (who : callee) (args : list C)
| EvWarn (w : warning)
| EvNewton (f : callable) (x0 : C) (fprime : option callable)
           (args : list C) (tol : R) (maxiter : Z).

Definition M (A : Type) : Type := (list event * res A)%type.

Definition ret {A} (a : A) : M A := ([], Ok a).

Definition bind {A B} (m : M A) (k : A -> M B) : M B :=
  match m with
  | (t, Ok a) => let (t', r) := k a in (t ++ t', r)
  | (t, Raise e) => (t, Raise e)
  end.

Definition lift {A} (r : res A) : M A := ([], r).

Notation "x <- m ;; k" := (bind m (fun x => k))
  (at level 61, m at next level, right associativity).

Definition trace {A} (m : M A) : list event := fst m.
Definition outcome {A} (m : M A) : res A := snd m.

(** Evaluating a callable is an observable event. *)
Definition call (who : callee) (g : callable) (args : list C) : M C :=
  ([EvCall who args], g args).

(** [warnings.warn(msg, RuntimeWarning)] under the default filter. *)
Definition warn (w : warning) : M unit := ([EvWarn w], Ok tt).

(** ** Python and numpy primitives *)

(** [a / b] on Python numbers. *)
Definition py_div (a b : C) : res C :=
  if C_eq_dec b C0 then Raise ZeroDivisionError else Ok (Cdiv a b).

(** [a / b] on two floats. *)
Definition float_div (a b : R) : res R :=
  if Req_dec_T b 0 then Raise ZeroDivisionError else Ok (a / b).

(** [x ** y] for a numpy double [x >= 0] (the only bases the module forms
    are moduli): [0 ** 0 = 1], [0 ** y = 0] for the positive exponents used
    here, and [exp (y * ln x)] for a positive base. *)
Definition np_power (x y : R) : R :=
  if Rle_dec x 0
  then (if Req_dec_T y 0 then 1 else 0)
  else Rpower x y.

(** [seq[i]] on a list: [IndexError] past the end. *)
Definition getitem {A} (l : list A) (i : nat) : res A :=
  match nth_error l i with
  | Some a => Ok a
  | None => Raise IndexError
  end.

Fixpoint list_update {A} (l : list A) (i : nat) (v : A) : list A :=
  match l, i with
  | [], _ => []
  | _ :: t, O => v :: t
  | h :: t, S j => h :: list_update t j v
  end.

(** [arr[i] = v] on a numpy array: [IndexError] past the end. *)
Definition setitem {A} (l : list A) (i : nat) (v : A) : res (list A) :=
  if (i <? length l)%nat then Ok (list_update l i v) else Raise IndexError.

(** [numpy.zeros(n, dtype=numpy.double)]: a negative dimension is refused. *)
Definition np_zeros (n : Z) : res (list R) :=
  if (n <? 0)%Z then Raise ValueError else Ok (repeat 0 (Z.to_nat n)).

(** [arr.max()]: an empty array has no maximum. *)
Definition np_max (l : list R) : res R :=
  match l with
  | [] => Raise ValueError
  | x :: t => Ok (fold_left Rmax t x)
  end.

(** [for k in range(lo, hi): body], threading the loop state. *)
Fixpoint for_each {S} (ks : list nat) (body : nat -> S -> M S) (s : S) : M S :=
  match ks with
  | [] => ret s
  | k :: ks' => s' <- body k s ;; for_each ks' body s'
  end.

Definition range (lo hi : nat) : list nat := seq lo (hi - lo).

(** ** The module's functions *)

(** [smale_beta], lines 144-146. *)
Definition smale_beta (f : callable) (x0 : C) (df : list callable)
    (args : list C) : M R :=
  let _args := x0 :: args in
  fx <- call TargetF f _args ;;
  d0 <- lift (getitem df 0) ;;
  dfx <- call (Deriv 0) d0 _args ;;
  q <- lift (py_div fx dfx) ;;
  ret (np_abs q).

(** One turn of the loop of [smale_gamma], lines 174-175. *)
Definition gamma_step (df : list callable) (_args : list C) (k : nat)
    (s : C * list R) : M (C * list R) :=
  let (scale, gammas) := s in
  scale' <- lift (py_div scale (RtoC (1 * INR (k + 1)))) ;;
  dk <- lift (getitem df k) ;;
  v <- call (Deriv k) dk _args ;;
  e <- lift (float_div 1 (INR k)) ;;
  gammas' <- lift (setitem gammas (k - 1) (np_power (np_abs (Cmul scale' v)) e)) ;;
  ret (scale', gammas').

(** [smale_gamma], lines 169-178.  The argument [f] is accepted and never
    used, as in the source. *)
Definition smale_gamma (f : callable) (x0 : C) (df : list callable)
    (args : list C) : M R :=
  let _args := x0 :: args in
  gammas <- lift (np_zeros (Z.of_nat (length df) - 1)) ;;
  d0 <- lift (getitem df 0) ;;
  dfx0 <- call (Deriv 0) d0 _args ;;
  scale <- lift (py_div (RtoC 1) dfx0) ;;
  s <- for_each (range 1 (length df)) (gamma_step df _args) (scale, gammas) ;;
  lift (np_max (snd s)).

(** [smale_alpha], lines 120-121. *)
Definition smale_alpha (f : callable) (x0 : C) (df : list callable)
    (args : list C) : M R :=
  b <- smale_beta f x0 df args ;;
  g <- smale_gamma f x0 df args ;;
  ret (b * g).

(** The threshold literal of line 90. *)
Definition alpha_star : R := 0.15767078078675478.

Definition default_tol : R := 1.48e-8.
Definition default_maxiter : Z := 50%Z.

Section Newton.

(** [scipy.optimize.newton], external to the repository: whatever it
    computes from its arguments. *)
Variable newton :
  callable -> C -> option callable -> list C -> R -> Z -> res C.

Definition call_newton (f : callable) (x0 : C) (fprime : option callable)
    (args : list C) (tol : R) (maxiter : Z) : M C :=
  ([EvNewton f x0 fprime args tol maxiter],
   newton f x0 fprime args tol maxiter).

(** [smale_newton], lines 84-97. *)
Definition smale_newton (f : callable) (x0 : C) (df : list callable)
    (args : list C) (tol : R) (maxiter : Z) : M C :=
  _ <- (if (length df <? 2)%nat
        then warn NotEnoughDerivatives
        else
          alpha <- smale_alpha f x0 df args ;;
          if Rlt_dec alpha_star alpha
          then warn NotApproximateSolution
          else ret tt) ;;
  let fprime := if (0 <? length df)%nat then nth_error df 0 else None in
  zero <- call_newton f x0 fprime args tol maxiter ;;
  ret zero.

End Newton.

(** ** Vocabulary of the statements *)

(** The callables of [df] all return at the argument tuple [a], with the
    values [vals]. *)
Definition returns_at (a : list C) (df : list callable) (vals : list C) : Prop :=
  Forall2 (fun d v => d a = Ok v) df vals.

(** [1 / (c * d0)] for a real [c]: the running scale of [smale_gamma]. *)
Definition scale_at (d0 : C) (c : R) : C := Cdiv (RtoC 1) (Cmul (RtoC c) d0).

(** The entry the loop of [smale_gamma] stores at its turn [k]. *)
Definition loop_term (d0 : C) (vals : list C) (k : nat) : R :=
  np_power
    (np_abs (Cdiv (nth k vals C0) (Cmul (RtoC (INR (fact (k + 1)))) d0)))
    (1 / INR k).

(** The term of derivative order [k >= 2]:
    [|f^(k)(x0) / (k! * f'(x0))| ^ (1/(k-1))], where [vals] lists the values
    of the derivatives at [x0], the first derivative first. *)
Definition gamma_order_term (vals : list C) (k : nat) : R :=
  np_power
    (np_abs (Cdiv (nth (k - 1) vals C0)
                  (Cmul (RtoC (INR (fact k))) (nth 0 vals C0))))
    (1 / INR (k - 1)).

(** [g] is the maximum of the terms of orders [2 .. n]. *)
Definition is_max_of_orders (vals : list C) (n : nat) (g : R) : Prop :=
  (exists k, (2 <= k <= n)%nat /\ g = gamma_order_term vals k) /\
  (forall k, (2 <= k <= n)%nat -> gamma_order_term vals k <= g).

(** The event is the evaluation of a derivative. *)
Definition is_deriv_call (e : event) : Prop :=
  exists k a, e = EvCall (Deriv k) a.

(** The event is the evaluation of [f] or of [df[0]]. *)
Definition is_base_call (e : event) : Prop :=
  exists a, e = EvCall TargetF a \/ e = EvCall (Deriv 0) a.

(** The event is the evaluation of some callable. *)
Definition is_call (e : event) : Prop :=
  exists who a, e = EvCall who a.

Fixpoint count_newton (t : list event) : nat :=
  match t with
  | [] => 0
  | EvNewton _ _ _ _ _ _ :: t' => S (count_newton t')
  | _ :: t' => count_newton t'
  end.

(** The solver is invoked exactly once, on [f], [x0], the first derivative
    if there is one, [args], [tol] and [maxiter], and its result (value or
    exception) is the result of the call. *)
Definition invokes_newton_once
    (newton : callable -> C -> option callable -> list C -> R -> Z -> res C)
    (f : callable) (x0 : C) (df : list callable) (args : list C)
    (tol : R) (maxiter : Z) : Prop :=
  let run := smale_newton newton f x0 df args tol maxiter in
  count_newton (trace run) = 1%nat /\
  In (EvNewton f x0 (hd_error df) args tol maxiter) (trace run) /\
  outcome run = newton f x0 (hd_error df) args tol maxiter.

(** The number of warnings in a trace. *)
Fixpoint count_warn (t : list event) : nat :=
  match t with
  | [] => 0
  | EvWarn _ :: t' => S (count_warn t')
  | _ :: t' => count_warn t'
  end.

(** The callable that returns [c] times what [g] returns, and raises
    what [g] raises. *)
Definition scaled (c : C) (g : callable) : callable :=
  fun a => match g a with
           | Ok v => Ok (Cmul c v)
           | Raise e => Raise e
           end.

(** The evaluations [smale_alpha] makes when nothing raises: [f] and
    [df[0]] for beta, then [df[0]], ..., [df[n-1]] for gamma. *)
Definition alpha_calls (a : list C) (n : nat) : list event :=
  [EvCall TargetF a; EvCall (Deriv 0) a] ++
  map (fun k => EvCall (Deriv k) a) (seq 0 n).

(** The event is the evaluation of some callable on the tuple [a]. *)
Definition is_call_with (a : list C) (e : event) : Prop :=
  exists who, e = EvCall who a.

(** ** The functions of the test suite *)

(** A two-argument lambda [lambda x, a: ...]; any other arity is a
    [TypeError]. *)
Definition lambda2 (body : C -> C -> C) : callable :=
  fun a => match a with
           | [x; p] => Ok (body x p)
           | _ => Raise TypeError
           end.

(** A one-argument lambda [lambda x: ...]; any other arity is a
    [TypeError]. *)
Definition lambda1 (body : C -> C) : callable :=
  fun a => match a with
           | [x] => Ok (body x)
           | _ => Raise TypeError
           end.

(** [f = lambda x,a: x**3 - a] and its derivatives
    [3*x**2], [6*x], [6] ([test_function_arguments]). *)
Definition cubic_f : callable :=
  lambda2 (fun x a => Csub (Cmul x (Cmul x x)) a).

Definition cubic_df : list callable :=
  [ lambda2 (fun x _ => Cmul (RtoC 3) (Cmul x x));
    lambda2 (fun x _ => Cmul (RtoC 6) x);
    lambda2 (fun _ _ => RtoC 6) ].

Definition cubic_vals (x : C) : list C :=
  [ Cmul (RtoC 3) (Cmul x x); Cmul (RtoC 6) x; RtoC 6 ].

(** A solver that hands its starting point back; it stands for
    [scipy.optimize.newton] where a concrete solver is needed. *)
Definition solver_returning_x0 :
  callable -> C -> option callable -> list C -> R -> Z -> res C :=
  fun _ x0 _ _ _ _ => Ok x0.

(** ** Facts about the trace monad *)

Lemma bind_Ok {A B} (m : M A) (k : A -> M B) t a :
  m = (t, Ok a) -> bind m k = (t ++ trace (k a), outcome (k a)).
Proof. intros ->. unfold bind, trace, outcome. now destruct (k a). Qed.

Lemma bind_Raise {A B} (m : M A) (k : A -> M B) t e :
  m = (t, Raise e) -> bind m k = (t, Raise e).
Proof. now intros ->. Qed.

Lemma outcome_bind_Ok {A B} (m : M A) (k : A -> M B) b :
  outcome (bind m k) = Ok b ->
  exists a, outcome m = Ok a /\ outcome (k a) = Ok b.
Proof.
  destruct m as [t [a | e]]; simpl.
  - intros H. exists a. split; [reflexivity |].
    unfold outcome in *. now destruct (k a).
  - discriminate.
Qed.

Lemma trace_bind_Forall {A B} (P : event -> Prop) (m : M A) (k : A -> M B) :
  Forall P (trace m) -> (forall a, Forall P (trace (k a))) ->
  Forall P (trace (bind m k)).
Proof.
  intros Hm Hk. destruct m as [t [a | e]]; simpl in *.
  - specialize (Hk a). unfold trace in *. destruct (k a) as [t' r]. simpl in *.
    apply Forall_app. now split.
  - exact Hm.
Qed.

Lemma trace_lift {A} (P : event -> Prop) (r : res A) : Forall P (trace (lift r)).
Proof. constructor. Qed.

Lemma trace_ret {A} (P : event -> Prop) (a : A) : Forall P (trace (ret a)).
Proof. constructor. Qed.

Lemma for_each_trace_Forall {S} (P : event -> Prop) ks (body : nat -> S -> M S) :
  (forall k s, Forall P (trace (body k s))) ->
  forall s, Forall P (trace (for_each ks body s)).
Proof.
  intros Hbody. induction ks as [| k ks IH]; intros s; simpl.
  - constructor.
  - apply trace_bind_Forall; [apply Hbody | apply IH].
Qed.

Lemma for_each_invariant {S} (P : S -> Prop) ks (body : nat -> S -> M S) :
  (forall k s s', P s -> outcome (body k s) = Ok s' -> P s') ->
  forall s s', P s -> outcome (for_each ks body s) = Ok s' -> P s'.
Proof.
  intros Hbody. induction ks as [| k ks IH]; intros s s' Hs; simpl.
  - unfold outcome, ret. simpl. intros [= <-]. exact Hs.
  - intros H. apply outcome_bind_Ok in H as (s1 & H1 & H2).
    eapply IH; [| exact H2]. eapply Hbody; eassumption.
Qed.

Lemma bind_lift_Ok {A B} (a : A) (k : A -> M B) : bind (lift (Ok a)) k = k a.
Proof. unfold bind, lift. now destruct (k a). Qed.

Lemma bind_ret {A B} (a : A) (k : A -> M B) : bind (ret a) k = k a.
Proof. apply bind_lift_Ok. Qed.

Lemma bind_call_Ok {B} who (g : callable) a v (k : C -> M B) :
  g a = Ok v ->
  bind (call who g a) k = (EvCall who a :: trace (k v), outcome (k v)).
Proof. intros Hg. unfold call. now rewrite (bind_Ok _ _ _ _ (f_equal _ Hg)). Qed.

(** ** Which events the estimators cause *)

Lemma smale_gamma_trace f x0 df args :
  Forall is_deriv_call (trace (smale_gamma f x0 df args)).
Proof.
  unfold smale_gamma.
  apply trace_bind_Forall; [apply trace_lift | intros gammas].
  apply trace_bind_Forall; [apply trace_lift | intros d0].
  apply trace_bind_Forall.
  { repeat constructor. now exists 0%nat, (x0 :: args). }
  intros dfx0.
  apply trace_bind_Forall; [apply trace_lift | intros scale].
  apply trace_bind_Forall; [| intros s; apply trace_lift].
  apply for_each_trace_Forall. intros k [sc gs]. unfold gamma_step.
  apply trace_bind_Forall; [apply trace_lift | intros sc'].
  apply trace_bind_Forall; [apply trace_lift | intros dk].
  apply trace_bind_Forall.
  { repeat constructor. now exists k, (x0 :: args). }
  intros v.
  apply trace_bind_Forall; [apply trace_lift | intros e].
  apply trace_bind_Forall; [apply trace_lift | intros gs'].
  apply trace_ret.
Qed.

Lemma smale_beta_trace f x0 df args :
  Forall is_base_call (trace (smale_beta f x0 df args)).
Proof.
  unfold smale_beta.
  apply trace_bind_Forall.
  { repeat constructor. exists (x0 :: args). now left. }
  intros fx.
  apply trace_bind_Forall; [apply trace_lift | intros d0].
  apply trace_bind_Forall.
  { repeat constructor. exists (x0 :: args). now right. }
  intros dfx.
  apply trace_bind_Forall; [apply trace_lift | intros q].
  apply trace_ret.
Qed.

Lemma smale_alpha_trace f x0 df args :
  Forall is_call (trace (smale_alpha f x0 df args)).
Proof.
  unfold smale_alpha.
  apply trace_bind_Forall.
  { eapply Forall_impl; [| apply smale_beta_trace].
    intros e [a [-> | ->]]; eexists _, _; reflexivity. }
  intros b. apply trace_bind_Forall; [| intros g; apply trace_ret].
  eapply Forall_impl; [| apply smale_gamma_trace].
  intros e (k & a & ->). eexists _, _; reflexivity.
Qed.

(** ** Complex arithmetic used by the estimators *)

Lemma Cnorm2_nonneg z : 0 <= Cnorm2 z.
Proof. unfold Cnorm2. nra. Qed.

Lemma Cnorm2_pos z : z <> C0 -> 0 < Cnorm2 z.
Proof.
  destruct z as [a b]. unfold Cnorm2, C0. simpl. intros Hz.
  destruct (Req_dec_T a 0) as [-> | Ha]; [| nra].
  destruct (Req_dec_T b 0) as [-> | Hb]; [| nra].
  now contradiction Hz.
Qed.

Lemma RtoC_neq_0 r : r <> 0 -> RtoC r <> C0.
Proof. intros Hr H. apply Hr. now inversion H. Qed.

Lemma Cmul_RtoC_neq_0 r z : r <> 0 -> z <> C0 -> Cmul (RtoC r) z <> C0.
Proof.
  destruct z as [a b]. unfold Cmul, RtoC, C0. simpl. intros Hr Hz H.
  inversion H as [[H1 H2]]. apply Hz.
  assert (a = 0) by nra. assert (b = 0) by nra. now subst.
Qed.

Lemma np_abs_nonneg z : 0 <= np_abs z.
Proof. apply sqrt_pos. Qed.

Lemma scaled_norm_neq_0 k a b :
  k <> 0 -> 0 < a * a + b * b -> k * a * (k * a) + k * b * (k * b) <> 0.
Proof.
  intros Hk Hn.
  assert (0 < k * k) by (destruct (Rtotal_order k 0) as [H | [H | H]]; nra).
  assert (0 < (k * k) * (a * a + b * b)) by now apply Rmult_lt_0_compat.
  nra.
Qed.

(** Discharges the side conditions left by [field] in the lemmas below. *)
Ltac nonzero_side :=
  repeat match goal with |- _ /\ _ => split end;
  first
    [ assumption
    | apply scaled_norm_neq_0;
      [ repeat apply Rmult_integral_contrapositive_currified; assumption
      | assumption ]
    | lra ].

Lemma scale_at_1 d0 : d0 <> C0 -> Cdiv (RtoC 1) d0 = scale_at d0 1.
Proof.
  intros Hd. pose proof (Cnorm2_pos d0 Hd) as Hn.
  destruct d0 as [a b]. unfold scale_at, Cdiv, Cmul, RtoC, Cnorm2 in *.
  simpl in *. f_equal; field; nonzero_side.
Qed.

Lemma scale_at_step d0 c r :
  d0 <> C0 -> c <> 0 -> r <> 0 ->
  Cdiv (scale_at d0 c) (RtoC r) = scale_at d0 (r * c).
Proof.
  intros Hd Hc Hr. pose proof (Cnorm2_pos d0 Hd) as Hn.
  destruct d0 as [a b]. unfold scale_at, Cdiv, Cmul, RtoC, Cnorm2 in *.
  simpl in *. f_equal; field; nonzero_side.
Qed.

Lemma scale_at_mul d0 c v :
  d0 <> C0 -> c <> 0 ->
  Cmul (scale_at d0 c) v = Cdiv v (Cmul (RtoC c) d0).
Proof.
  intros Hd Hc. pose proof (Cnorm2_pos d0 Hd) as Hn.
  destruct d0 as [a b], v as [x y].
  unfold scale_at, Cdiv, Cmul, RtoC, Cnorm2 in *.
  simpl in *. f_equal; field; nonzero_side.
Qed.

Lemma Cnorm2_Cdiv z w : w <> C0 -> Cnorm2 (Cdiv z w) = Cnorm2 z / Cnorm2 w.
Proof.
  intros Hw. pose proof (Cnorm2_pos w Hw) as Hn.
  destruct z as [x y], w as [a b]. unfold Cdiv, Cnorm2 in *. simpl in *.
  field. lra.
Qed.

Lemma np_abs_Cdiv z w : w <> C0 -> np_abs (Cdiv z w) = np_abs z / np_abs w.
Proof.
  intros Hw. unfold np_abs. rewrite (Cnorm2_Cdiv _ _ Hw).
  apply sqrt_div_alt, Cnorm2_pos, Hw.
Qed.

Lemma np_abs_RtoC x : 0 <= x -> np_abs (RtoC x) = x.
Proof.
  intros Hx. unfold np_abs, Cnorm2, RtoC. simpl.
  replace (x * x + 0 * 0) with (x * x) by ring. now apply sqrt_square.
Qed.

Lemma np_power_nonneg x y : 0 <= np_power x y.
Proof.
  unfold np_power. destruct (Rle_dec x 0).
  - destruct (Req_dec_T y 0); lra.
  - unfold Rpower. left. apply exp_pos.
Qed.

(** ** Stepping through the code *)

Lemma py_div_Ok a b : b <> C0 -> py_div a b = Ok (Cdiv a b).
Proof. intros Hb. unfold py_div. now destruct (C_eq_dec b C0). Qed.

Lemma py_div_zero a : py_div a C0 = Raise ZeroDivisionError.
Proof. unfold py_div. now destruct (C_eq_dec C0 C0). Qed.

Lemma float_div_Ok a b : b <> 0 -> float_div a b = Ok (a / b).
Proof. intros Hb. unfold float_div. now destruct (Req_dec_T b 0). Qed.

Lemma list_update_app {A} (l1 l2 : list A) x v :
  list_update (l1 ++ x :: l2) (length l1) v = l1 ++ v :: l2.
Proof. induction l1 as [| h t IH]; simpl; [reflexivity | now rewrite IH]. Qed.

Lemma returns_at_nth a df vals i :
  returns_at a df vals -> (i < length df)%nat ->
  exists d, nth_error df i = Some d /\ d a = Ok (nth i vals C0).
Proof.
  intros H. revert i. induction H as [| d v df vals Hd _ IH]; intros i Hi.
  - simpl in Hi. lia.
  - destruct i as [| i]; simpl.
    + now exists d.
    + apply IH. simpl in Hi. lia.
Qed.

Lemma INR_fact_neq_0 n : INR (fact n) <> 0.
Proof. apply not_0_INR, fact_neq_0. Qed.

Lemma gamma_step_Ok df a vals d0 k gs1 x gs2 :
  returns_at a df vals -> d0 <> C0 ->
  (1 <= k)%nat -> (k < length df)%nat -> length gs1 = (k - 1)%nat ->
  gamma_step df a k (scale_at d0 (INR (fact k)), gs1 ++ x :: gs2) =
  ([EvCall (Deriv k) a],
   Ok (scale_at d0 (INR (fact (k + 1))), gs1 ++ loop_term d0 vals k :: gs2)).
Proof.
  intros Hret Hd Hk1 Hk Hlen. unfold gamma_step.
  assert (Hr : 1 * INR (k + 1) <> 0).
  { rewrite Rmult_1_l. apply not_0_INR. lia. }
  rewrite (py_div_Ok _ _ (RtoC_neq_0 _ Hr)), bind_lift_Ok.
  rewrite (scale_at_step _ _ _ Hd (INR_fact_neq_0 k) Hr).
  assert (Hfact : 1 * INR (k + 1) * INR (fact k) = INR (fact (k + 1))).
  { rewrite Nat.add_1_r. simpl fact. rewrite <- Nat.add_1_r at 1.
    rewrite Rmult_1_l, <- mult_INR. f_equal. lia. }
  rewrite Hfact.
  destruct (returns_at_nth a df vals k Hret Hk) as (dk & Hnth & Hdk).
  unfold getitem. rewrite Hnth, bind_lift_Ok.
  rewrite (bind_call_Ok _ _ _ _ _ Hdk).
  assert (Hk0 : INR k <> 0) by (apply not_0_INR; lia).
  rewrite (float_div_Ok _ _ Hk0), bind_lift_Ok.
  unfold setitem. rewrite <- Hlen.
  assert (Hlt : (length gs1 <? length (gs1 ++ x :: gs2))%nat = true).
  { apply Nat.ltb_lt. rewrite length_app. simpl. lia. }
  rewrite Hlt, bind_lift_Ok, list_update_app.
  rewrite (scale_at_mul _ _ _ Hd (INR_fact_neq_0 (k + 1))).
  reflexivity.
Qed.

Lemma gamma_loop df a vals d0 :
  returns_at a df vals -> d0 <> C0 ->
  forall m j, (j + m + 1 = length df)%nat ->
  for_each (seq (S j) m) (gamma_step df a)
    (scale_at d0 (INR (fact (S j))),
     map (loop_term d0 vals) (seq 1 j) ++ repeat 0 m) =
  (map (fun k => EvCall (Deriv k) a) (seq (S j) m),
   Ok (scale_at d0 (INR (fact (S (j + m)))),
       map (loop_term d0 vals) (seq 1 (j + m)))).
Proof.
  intros Hret Hd. induction m as [| m IH]; intros j Hj.
  - simpl. rewrite app_nil_r, Nat.add_0_r. reflexivity.
  - cbn [seq for_each repeat].
    erewrite bind_Ok.
    2:{ apply gamma_step_Ok with (vals := vals); try assumption; try lia.
        rewrite length_map, length_seq. lia. }
    assert (Hseq : map (loop_term d0 vals) (seq 1 j) ++
                   loop_term d0 vals (S j) :: repeat 0 m =
                   map (loop_term d0 vals) (seq 1 (S j)) ++ repeat 0 m).
    { rewrite seq_S, map_app, <- app_assoc. reflexivity. }
    rewrite Hseq, Nat.add_1_r, (IH (S j)) by lia.
    replace (S j + m)%nat with (j + S m)%nat by lia. reflexivity.
Qed.

Lemma fold_left_Rmax_spec t : forall x,
  In (fold_left Rmax t x) (x :: t) /\
  Forall (fun y => y <= fold_left Rmax t x) (x :: t).
Proof.
  induction t as [| y t IH]; intros x; simpl.
  - split; [now left | constructor; [lra | constructor]].
  - destruct (IH (Rmax x y)) as [Hin Hall]. split.
    + destruct Hin as [Heq | Hin]; [| now right; right].
      rewrite <- Heq. unfold Rmax. destruct (Rle_dec x y); [right | ]; now left.
    + inversion Hall as [| ? ? Hm Ht]; subst.
      pose proof (Rmax_l x y). pose proof (Rmax_r x y).
      constructor; [lra | constructor; [lra | exact Ht]].
Qed.

(** ** What [smale_gamma] computes when the derivatives return *)

Lemma np_zeros_Ok n : (1 <= n)%nat -> np_zeros (Z.of_nat n - 1) = Ok (repeat 0 (n - 1)).
Proof.
  intros Hn. unfold np_zeros.
  assert (H : (Z.of_nat n - 1 <? 0)%Z = false) by (apply Z.ltb_ge; lia).
  rewrite H. do 2 f_equal. lia.
Qed.

Lemma smale_gamma_run f x0 df args vals :
  returns_at (x0 :: args) df vals -> (2 <= length df)%nat ->
  nth 0 vals C0 <> C0 ->
  smale_gamma f x0 df args =
  (map (fun k => EvCall (Deriv k) (x0 :: args)) (seq 0 (length df)),
   np_max (map (loop_term (nth 0 vals C0) vals) (seq 1 (length df - 1)))).
Proof.
  intros Hret Hlen Hd. unfold smale_gamma.
  rewrite np_zeros_Ok, bind_lift_Ok by lia.
  destruct (returns_at_nth _ df vals 0 Hret) as (d0 & Hnth & Hd0); [lia |].
  unfold getitem. rewrite Hnth, bind_lift_Ok.
  rewrite (bind_call_Ok _ _ _ _ _ Hd0).
  rewrite (py_div_Ok _ _ Hd), bind_lift_Ok, (scale_at_1 _ Hd).
  unfold range.
  pose proof (gamma_loop df (x0 :: args) vals _ Hret Hd (length df - 1) 0) as Hloop.
  change (INR (fact 1)) with 1 in Hloop.
  cbn [seq map app] in Hloop.
  unfold trace, outcome.
  erewrite bind_Ok by (apply Hloop; lia).
  unfold trace, outcome, lift. cbn [fst snd app].
  replace (length df) with (S (length df - 1)) at 3 by lia.
  cbn [seq map]. rewrite app_nil_r. reflexivity.
Qed.

Lemma loop_term_order vals k :
  loop_term (nth 0 vals C0) vals k = gamma_order_term vals (S k).
Proof.
  unfold loop_term, gamma_order_term.
  now rewrite Nat.add_1_r, Nat.sub_succ, Nat.sub_0_r.
Qed.

Lemma np_max_is_max_of_orders vals n g :
  np_max (map (loop_term (nth 0 vals C0) vals) (seq 1 (n - 1))) = Ok g ->
  is_max_of_orders vals n g.
Proof.
  unfold np_max.
  destruct (map _ _) as [| x t] eqn:Hmap; [discriminate |].
  intros [= <-].
  destruct (fold_left_Rmax_spec t x) as [Hin Hall].
  rewrite <- Hmap in Hin, Hall. split.
  - apply in_map_iff in Hin as (k & Hk & Hin). apply in_seq in Hin.
    exists (S k). split; [lia |]. now rewrite <- loop_term_order.
  - intros k Hk. rewrite Forall_forall in Hall. apply Hall.
    apply in_map_iff. exists (k - 1)%nat. split.
    + rewrite loop_term_order. f_equal. lia.
    + apply in_seq. lia.
Qed.

(** ** What [smale_beta] computes when [f] and [df[0]] return *)

Lemma smale_beta_run f x0 df args d0 rest fx dfx :
  df = d0 :: rest ->
  f (x0 :: args) = Ok fx -> d0 (x0 :: args) = Ok dfx -> dfx <> C0 ->
  smale_beta f x0 df args =
  ([EvCall TargetF (x0 :: args); EvCall (Deriv 0) (x0 :: args)],
   Ok (np_abs (Cdiv fx dfx))).
Proof.
  intros -> Hf Hd Hnz. unfold smale_beta.
  rewrite (bind_call_Ok _ _ _ _ _ Hf).
  unfold getitem. cbn [nth_error]. rewrite bind_lift_Ok.
  rewrite (bind_call_Ok _ _ _ _ _ Hd).
  rewrite (py_div_Ok _ _ Hnz), bind_lift_Ok.
  reflexivity.
Qed.

Lemma smale_beta_nonneg f x0 df args b :
  outcome (smale_beta f x0 df args) = Ok b -> 0 <= b.
Proof.
  unfold smale_beta. intros H.
  apply outcome_bind_Ok in H as (fx & _ & H).
  apply outcome_bind_Ok in H as (d0 & _ & H).
  apply outcome_bind_Ok in H as (dfx & _ & H).
  apply outcome_bind_Ok in H as (q & _ & H).
  injection H as <-. apply np_abs_nonneg.
Qed.

Lemma list_update_Forall {A} (P : A -> Prop) l i v :
  Forall P l -> P v -> Forall P (list_update l i v).
Proof.
  intros Hl Hv. revert i. induction Hl as [| h t Hh Ht IH]; intros i; simpl.
  - constructor.
  - destruct i; constructor; auto.
Qed.

Lemma gamma_step_nonneg df a k s s' :
  Forall (Rle 0) (snd s) -> outcome (gamma_step df a k s) = Ok s' ->
  Forall (Rle 0) (snd s').
Proof.
  destruct s as [scale gammas]. unfold gamma_step. cbn [snd]. intros Hg H.
  apply outcome_bind_Ok in H as (sc & _ & H).
  apply outcome_bind_Ok in H as (dk & _ & H).
  apply outcome_bind_Ok in H as (v & _ & H).
  apply outcome_bind_Ok in H as (e & _ & H).
  apply outcome_bind_Ok in H as (gs & Hset & H).
  injection H as <-. simpl.
  unfold setitem, lift, outcome in Hset. simpl in Hset.
  destruct (k - 1 <? length gammas)%nat; [| discriminate].
  injection Hset as <-.
  apply list_update_Forall; [exact Hg | apply np_power_nonneg].
Qed.

Lemma smale_gamma_nonneg f x0 df args g :
  outcome (smale_gamma f x0 df args) = Ok g -> 0 <= g.
Proof.
  unfold smale_gamma. intros H.
  apply outcome_bind_Ok in H as (gammas & Hz & H).
  apply outcome_bind_Ok in H as (d0 & _ & H).
  apply outcome_bind_Ok in H as (dfx0 & _ & H).
  apply outcome_bind_Ok in H as (scale & _ & H).
  apply outcome_bind_Ok in H as (s & Hloop & H).
  assert (Hs : Forall (Rle 0) (snd s)).
  { eapply (for_each_invariant (fun s => Forall (Rle 0) (snd s)));
      [| | exact Hloop].
    - intros k s1 s2. apply gamma_step_nonneg.
    - simpl. unfold np_zeros, lift, outcome in Hz. simpl in Hz.
      destruct (Z.of_nat (length df) - 1 <? 0)%Z; [discriminate |].
      injection Hz as <-. apply Forall_forall.
      intros x Hx. apply repeat_spec in Hx. subst. apply Rle_refl. }
  unfold np_max, lift, outcome in H. simpl in H.
  destruct (snd s) as [| x t]; [discriminate |].
  injection H as <-.
  destruct (fold_left_Rmax_spec t x) as [_ Hall].
  inversion Hs; subst. inversion Hall; subst. lra.
Qed.

Lemma smale_alpha_outcome f x0 df args a :
  outcome (smale_alpha f x0 df args) = Ok a <->
  exists b g, outcome (smale_beta f x0 df args) = Ok b /\
              outcome (smale_gamma f x0 df args) = Ok g /\ a = b * g.
Proof.
  unfold smale_alpha. split.
  - intros H.
    apply outcome_bind_Ok in H as (b & Hb & H).
    apply outcome_bind_Ok in H as (g & Hg & H).
    injection H as <-. now exists b, g.
  - intros (b & g & Hb & Hg & ->).
    destruct (smale_beta f x0 df args) as [tb rb]. simpl in Hb. subst rb.
    destruct (smale_gamma f x0 df args) as [tg rg]. simpl in Hg. subst rg.
    reflexivity.
Qed.

Lemma smale_alpha_returns f x0 df args d0 rest fx vals :
  df = d0 :: rest -> f (x0 :: args) = Ok fx ->
  returns_at (x0 :: args) df vals -> (2 <= length df)%nat ->
  nth 0 vals C0 <> C0 ->
  exists alpha, outcome (smale_alpha f x0 df args) = Ok alpha.
Proof.
  intros Hdf Hf Hret Hlen Hnz.
  assert (Hd0 : d0 (x0 :: args) = Ok (nth 0 vals C0)).
  { destruct (returns_at_nth _ df vals 0 Hret) as (d & Hnth & Hd); [lia |].
    subst df. simpl in Hnth. now injection Hnth as <-. }
  pose proof (smale_beta_run f x0 df args d0 rest fx _ Hdf Hf Hd0 Hnz) as Hb.
  pose proof (smale_gamma_run f x0 df args vals Hret Hlen Hnz) as Hg.
  destruct (seq 1 (length df - 1)) as [| k ks] eqn:Hseq.
  { apply (f_equal (@length nat)) in Hseq. rewrite length_seq in Hseq.
    simpl in Hseq. lia. }
  eexists. apply smale_alpha_outcome. do 2 eexists. split; [| split].
  - rewrite Hb. reflexivity.
  - rewrite Hg. reflexivity.
  - reflexivity.
Qed.

(** ** Running [smale_newton] *)

Lemma count_newton_app t1 t2 :
  count_newton (t1 ++ t2) = (count_newton t1 + count_newton t2)%nat.
Proof.
  induction t1 as [| e t1 IH]; simpl; [reflexivity |].
  destruct e; simpl; now rewrite IH.
Qed.

Lemma count_newton_calls t : Forall is_call t -> count_newton t = 0%nat.
Proof.
  induction 1 as [| e t (who & a & ->) _ IH]; simpl; [reflexivity | exact IH].
Qed.

Lemma fprime_is_first (df : list callable) :
  (if (0 <? length df)%nat then nth_error df 0 else None) = hd_error df.
Proof. now destruct df. Qed.

Section NewtonFacts.

Variable newton :
  callable -> C -> option callable -> list C -> R -> Z -> res C.

Lemma newton_tail f x0 fprime args tol maxiter :
  (zero <- call_newton newton f x0 fprime args tol maxiter ;; ret zero) =
  ([EvNewton f x0 fprime args tol maxiter],
   newton f x0 fprime args tol maxiter).
Proof.
  unfold call_newton, bind, ret.
  now destruct (newton f x0 fprime args tol maxiter).
Qed.

Lemma smale_newton_uncertified f x0 df args tol maxiter :
  (length df < 2)%nat ->
  smale_newton newton f x0 df args tol maxiter =
  ([EvWarn NotEnoughDerivatives;
    EvNewton f x0 (hd_error df) args tol maxiter],
   newton f x0 (hd_error df) args tol maxiter).
Proof.
  intros Hlen. unfold smale_newton.
  apply Nat.ltb_lt in Hlen. rewrite Hlen, fprime_is_first.
  unfold warn. erewrite bind_Ok by reflexivity.
  rewrite newton_tail. reflexivity.
Qed.

Lemma smale_newton_certified f x0 df args tol maxiter alpha :
  (2 <= length df)%nat ->
  outcome (smale_alpha f x0 df args) = Ok alpha ->
  smale_newton newton f x0 df args tol maxiter =
  (trace (smale_alpha f x0 df args) ++
     (if Rlt_dec alpha_star alpha
      then [EvWarn NotApproximateSolution] else []) ++
     [EvNewton f x0 (hd_error df) args tol maxiter],
   newton f x0 (hd_error df) args tol maxiter).
Proof.
  intros Hlen Halpha. unfold smale_newton.
  assert (H : (length df <? 2)%nat = false) by (apply Nat.ltb_ge; lia).
  rewrite H, fprime_is_first, newton_tail.
  destruct (smale_alpha f x0 df args) as [t r]. simpl in Halpha. subst r.
  unfold bind, warn, ret, trace.
  destruct (Rlt_dec alpha_star alpha); cbn [app fst];
    now rewrite ?app_nil_r, <- ?app_assoc.
Qed.

Lemma smale_newton_certification_raises f x0 df args tol maxiter e :
  (2 <= length df)%nat ->
  outcome (smale_alpha f x0 df args) = Raise e ->
  smale_newton newton f x0 df args tol maxiter =
  (trace (smale_alpha f x0 df args), Raise e).
Proof.
  intros Hlen Halpha. unfold smale_newton.
  assert (H : (length df <? 2)%nat = false) by (apply Nat.ltb_ge; lia).
  rewrite H.
  destruct (smale_alpha f x0 df args) as [t r]. simpl in Halpha. subst r.
  reflexivity.
Qed.

End NewtonFacts.

(** ** The test suite's inputs *)

Lemma cubic_returns x a : returns_at [x; a] cubic_df (cubic_vals x).
Proof. repeat constructor. Qed.

Lemma cubic_d0_at_1 : nth 0 (cubic_vals (RtoC 1)) C0 <> C0.
Proof. simpl. intros H. inversion H. lra. Qed.

Lemma cubic_d0_at_0 : Cmul (RtoC 3) (Cmul (RtoC 0) (RtoC 0)) = C0.
Proof. unfold Cmul, RtoC, C0. simpl. f_equal; ring. Qed.

Lemma cubic_alpha_at_0 :
  smale_alpha cubic_f (RtoC 0) cubic_df [RtoC 1] =
  ([EvCall TargetF [RtoC 0; RtoC 1]; EvCall (Deriv 0) [RtoC 0; RtoC 1]],
   Raise ZeroDivisionError).
Proof.
  unfold smale_alpha, smale_beta.
  erewrite bind_call_Ok by reflexivity.
  unfold getitem. cbn [nth_error cubic_df]. rewrite bind_lift_Ok.
  erewrite bind_call_Ok by reflexivity.
  rewrite cubic_d0_at_0, py_div_zero. reflexivity.
Qed.

(** The input of [test_warning_alpha_condition]: far from the root, alpha is
    above the threshold. *)
Lemma cubic_alpha_at_10 :
  exists alpha,
    outcome (smale_alpha cubic_f (RtoC 10) cubic_df [RtoC 1]) = Ok alpha /\
    alpha_star < alpha.
Proof.
  set (vals := cubic_vals (RtoC 10)).
  assert (Hd0 : nth 0 vals C0 = RtoC 300).
  { unfold vals, cubic_vals, Cmul, RtoC. simpl. f_equal; ring. }
  assert (Hnz : nth 0 vals C0 <> C0).
  { rewrite Hd0. apply RtoC_neq_0. lra. }
  set (fx := Csub (Cmul (RtoC 10) (Cmul (RtoC 10) (RtoC 10))) (RtoC 1)).
  pose proof (smale_beta_run cubic_f (RtoC 10) cubic_df [RtoC 1] _ _ fx
                (nth 0 vals C0) eq_refl eq_refl eq_refl Hnz) as Hb.
  pose proof (smale_gamma_run cubic_f (RtoC 10) cubic_df [RtoC 1] vals
                (cubic_returns _ _) (le_S _ _ (le_n 2)) Hnz) as Hg.
  destruct (np_max (map (loop_term (nth 0 vals C0) vals)
                        (seq 1 (length cubic_df - 1)))) as [g | e] eqn:Hmax;
    [| discriminate].
  apply np_max_is_max_of_orders in Hmax as [_ Hub].
  specialize (Hub 2%nat (conj (le_n 2) (le_S _ _ (le_n 2)))).
  exists (np_abs (Cdiv fx (nth 0 vals C0)) * g). split.
  { apply smale_alpha_outcome. exists (np_abs (Cdiv fx (nth 0 vals C0))), g.
    split; [now rewrite Hb | split; [now rewrite Hg | reflexivity]]. }
  assert (Hbeta : np_abs (Cdiv fx (nth 0 vals C0)) = 999 / 300).
  { rewrite (np_abs_Cdiv _ _ Hnz), Hd0.
    replace fx with (RtoC 999)
      by (unfold fx, Csub, Cmul, RtoC; simpl; f_equal; ring).
    rewrite !np_abs_RtoC by lra. reflexivity. }
  assert (Hterm : gamma_order_term vals 2 = 1 / 10).
  { unfold gamma_order_term. rewrite Hd0.
    replace (Cdiv (nth (2 - 1) vals C0) (Cmul (RtoC (INR (fact 2))) (RtoC 300)))
      with (RtoC (1 / 10)).
    2:{ unfold vals, cubic_vals, Cdiv, Cmul, Cnorm2, RtoC. simpl. f_equal; field. }
    rewrite np_abs_RtoC by lra. unfold np_power.
    destruct (Rle_dec (1 / 10) 0); [lra |].
    replace (1 / INR (2 - 1)) with 1 by (simpl; field).
    apply Rpower_1. lra. }
  rewrite Hbeta. rewrite Hterm in Hub. unfold alpha_star. nra.
Qed.

(** ** The claims *)

(** C1.  When every derivative returns at [(x0, *args)], at least two
    derivatives are supplied and the first derivative is nonzero there,
    [smale_gamma] returns the maximum, over the derivative orders [k] from 2
    up to [len(df)], of [|df[k-1] / (k! * df[0])| ^ (1/(k-1))]. *)
Theorem smale_gamma_is_max_of_order_terms f x0 df args vals :
  returns_at (x0 :: args) df vals ->
  (2 <= length df)%nat ->
  nth 0 vals C0 <> C0 ->
  exists g, outcome (smale_gamma f x0 df args) = Ok g /\
            is_max_of_orders vals (length df) g.
Proof.
  intros Hret Hlen Hnz.
  pose proof (smale_gamma_run f x0 df args vals Hret Hlen Hnz) as Hrun.
  destruct (np_max (map (loop_term (nth 0 vals C0) vals)
                        (seq 1 (length df - 1)))) as [g | e] eqn:Hmax.
  - exists g. split; [now rewrite Hrun |].
    now apply np_max_is_max_of_orders.
  - exfalso. unfold np_max in Hmax.
    destruct (seq 1 (length df - 1)) as [| k ks] eqn:Hseq; [| discriminate].
    apply (f_equal (@length nat)) in Hseq. rewrite length_seq in Hseq.
    simpl in Hseq. lia.
Qed.

Lemma smale_gamma_is_max_of_order_terms_witness :
  exists g,
    outcome (smale_gamma cubic_f (RtoC 1) cubic_df [RtoC 1]) = Ok g /\
    is_max_of_orders (cubic_vals (RtoC 1)) (length cubic_df) g.
Proof.
  apply (smale_gamma_is_max_of_order_terms
           cubic_f (RtoC 1) cubic_df [RtoC 1] (cubic_vals (RtoC 1))).
  - apply cubic_returns.
  - simpl. lia.
  - apply cubic_d0_at_1.
Defined.

(** C2.  With at least two derivatives, [smale_alpha] is the product of
    [smale_beta] and [smale_gamma]: as computations (beta first, then gamma,
    an exception of either propagating), and as values whenever it
    returns. *)
Theorem smale_alpha_is_beta_times_gamma f x0 df args :
  (2 <= length df)%nat ->
  smale_alpha f x0 df args =
    (b <- smale_beta f x0 df args ;;
     g <- smale_gamma f x0 df args ;;
     ret (b * g)) /\
  (forall a, outcome (smale_alpha f x0 df args) = Ok a <->
     exists b g, outcome (smale_beta f x0 df args) = Ok b /\
                 outcome (smale_gamma f x0 df args) = Ok g /\ a = b * g).
Proof.
  intros _. split; [reflexivity |]. intros a. apply smale_alpha_outcome.
Qed.

Lemma smale_alpha_is_beta_times_gamma_witness :
  smale_alpha cubic_f (RtoC 1) cubic_df [RtoC 1] =
    (b <- smale_beta cubic_f (RtoC 1) cubic_df [RtoC 1] ;;
     g <- smale_gamma cubic_f (RtoC 1) cubic_df [RtoC 1] ;;
     ret (b * g)) /\
  (forall a, outcome (smale_alpha cubic_f (RtoC 1) cubic_df [RtoC 1]) = Ok a <->
     exists b g,
       outcome (smale_beta cubic_f (RtoC 1) cubic_df [RtoC 1]) = Ok b /\
       outcome (smale_gamma cubic_f (RtoC 1) cubic_df [RtoC 1]) = Ok g /\
       a = b * g).
Proof.
  apply (smale_alpha_is_beta_times_gamma cubic_f (RtoC 1) cubic_df [RtoC 1]).
  simpl. lia.
Defined.

(** C3, as stated, fails: with [f(x,a) = x**3 - a], its three derivatives,
    [x0 = 0.0] and [args = (1,)], the division by [df[0](0.0, 1) = 0.0] in
    [smale_beta] raises and the solver is never reached. *)
Lemma smale_newton_certification_can_preempt_newton :
  smale_newton solver_returning_x0 cubic_f (RtoC 0) cubic_df [RtoC 1]
    default_tol default_maxiter =
  ([EvCall TargetF [RtoC 0; RtoC 1]; EvCall (Deriv 0) [RtoC 0; RtoC 1]],
   Raise ZeroDivisionError) /\
  ~ invokes_newton_once solver_returning_x0 cubic_f (RtoC 0) cubic_df
      [RtoC 1] default_tol default_maxiter.
Proof.
  assert (Hrun :
    smale_newton solver_returning_x0 cubic_f (RtoC 0) cubic_df [RtoC 1]
      default_tol default_maxiter =
    ([EvCall TargetF [RtoC 0; RtoC 1]; EvCall (Deriv 0) [RtoC 0; RtoC 1]],
     Raise ZeroDivisionError)).
  { rewrite (smale_newton_certification_raises _ _ _ _ _ _ _ ZeroDivisionError);
      [| simpl; lia |]; rewrite cubic_alpha_at_0; reflexivity. }
  split; [exact Hrun |].
  unfold invokes_newton_once. rewrite Hrun. simpl. intros (H & _). discriminate.
Qed.

(** C3, amended.  Whenever the certification raises no exception (fewer
    than two derivatives, or [smale_alpha] returns a value), [smale_newton]
    invokes the solver exactly once, with [fprime] the first derivative if
    there is one and [None] otherwise and [f], [x0], [args], [tol],
    [maxiter] unchanged, and returns or propagates the solver's result,
    whichever warning was emitted. *)
Theorem smale_newton_delegates_to_newton newton f x0 df args tol maxiter :
  ((length df < 2)%nat \/
   exists alpha, outcome (smale_alpha f x0 df args) = Ok alpha) ->
  invokes_newton_once newton f x0 df args tol maxiter.
Proof.
  unfold invokes_newton_once.
  destruct (Nat.lt_ge_cases (length df) 2) as [Hlt | Hge].
  - intros _. rewrite (smale_newton_uncertified _ _ _ _ _ _ _ Hlt).
    unfold trace, outcome. simpl. repeat split. right. now left.
  - intros [Hlt | (alpha & Halpha)]; [lia |].
    rewrite (smale_newton_certified _ _ _ _ _ _ _ _ Hge Halpha).
    unfold outcome. cbn [fst snd]. repeat split.
    + unfold trace at 1. cbn [fst].
      rewrite !count_newton_app,
        (count_newton_calls _ (smale_alpha_trace f x0 df args)).
      destruct (Rlt_dec alpha_star alpha); reflexivity.
    + unfold trace at 1. cbn [fst]. apply in_or_app. right.
      apply in_or_app. right. now left.
Qed.

Lemma smale_newton_delegates_to_newton_witness :
  invokes_newton_once solver_returning_x0 cubic_f (RtoC 1) cubic_df [RtoC 1]
    default_tol default_maxiter.
Proof.
  apply (smale_newton_delegates_to_newton solver_returning_x0 cubic_f
           (RtoC 1) cubic_df [RtoC 1] default_tol default_maxiter).
  right.
  apply (smale_alpha_returns cubic_f (RtoC 1) cubic_df [RtoC 1] _ _ _
           (cubic_vals (RtoC 1)) eq_refl eq_refl).
  - apply cubic_returns.
  - simpl. lia.
  - apply cubic_d0_at_1.
Defined.

(** C4.  With at least two derivatives and alpha computed, the
    'may not be an approximate solution' warning is emitted exactly when
    alpha is strictly above the threshold, whose value is the decimal
    0.15767078078675478; at or below it no warning at all is emitted; and in
    both cases the solver is then invoked. *)
Theorem smale_newton_threshold_warning newton f x0 df args tol maxiter alpha :
  (2 <= length df)%nat ->
  outcome (smale_alpha f x0 df args) = Ok alpha ->
  let run := smale_newton newton f x0 df args tol maxiter in
  (In (EvWarn NotApproximateSolution) (trace run) <-> alpha_star < alpha) /\
  (alpha <= alpha_star -> forall w, ~ In (EvWarn w) (trace run)) /\
  In (EvNewton f x0 (hd_error df) args tol maxiter) (trace run) /\
  outcome run = newton f x0 (hd_error df) args tol maxiter /\
  alpha_star = 15767078078675478 / 10 ^ 17.
Proof.
  intros Hlen Halpha run. subst run.
  rewrite (smale_newton_certified _ _ _ _ _ _ _ _ Hlen Halpha).
  unfold outcome. cbn [fst snd]. unfold trace at 1 3 5. cbn [fst].
  pose proof (smale_alpha_trace f x0 df args) as Hcalls.
  rewrite Forall_forall in Hcalls.
  assert (Hnowarn : forall w, ~ In (EvWarn w) (trace (smale_alpha f x0 df args))).
  { intros w Hw. destruct (Hcalls _ Hw) as (who & a & H). discriminate. }
  repeat split.
  - intros H. apply in_app_or in H as [H | H]; [now apply Hnowarn in H |].
    destruct (Rlt_dec alpha_star alpha) as [Hlt | Hge]; [exact Hlt |].
    simpl in H. destruct H as [H | []]. discriminate.
  - intros Hlt. apply in_or_app. right.
    destruct (Rlt_dec alpha_star alpha); [now left | contradiction].
  - intros Hle w H. apply in_app_or in H as [H | H]; [now apply Hnowarn in H |].
    destruct (Rlt_dec alpha_star alpha) as [Hlt | Hge]; [lra |].
    simpl in H. destruct H as [H | []]. discriminate.
  - apply in_or_app. right. apply in_or_app. right. now left.
  - unfold alpha_star. lra.
Qed.

Lemma smale_newton_threshold_warning_witness :
  exists alpha,
    outcome (smale_alpha cubic_f (RtoC 10) cubic_df [RtoC 1]) = Ok alpha /\
    alpha_star < alpha /\
    let run := smale_newton solver_returning_x0 cubic_f (RtoC 10) cubic_df
                 [RtoC 1] default_tol default_maxiter in
    (In (EvWarn NotApproximateSolution) (trace run) <-> alpha_star < alpha) /\
    (alpha <= alpha_star -> forall w, ~ In (EvWarn w) (trace run)) /\
    In (EvNewton cubic_f (RtoC 10) (hd_error cubic_df) [RtoC 1]
          default_tol default_maxiter) (trace run) /\
    outcome run = Ok (RtoC 10) /\
    alpha_star = 15767078078675478 / 10 ^ 17.
Proof.
  destruct cubic_alpha_at_10 as (alpha & Halpha & Hlt).
  exists alpha. split; [exact Halpha |]. split; [exact Hlt |].
  apply (smale_newton_threshold_warning solver_returning_x0 cubic_f (RtoC 10)
           cubic_df [RtoC 1] default_tol default_maxiter alpha).
  - simpl. lia.
  - exact Halpha.
Defined.

(** C5.  With at least one derivative whose value at [(x0, *args)] is
    nonzero, [smale_beta] returns the modulus of [f / df[0]] there, which is
    the quotient of the two moduli; it evaluates [f] and [df[0]] once
    each. *)
Theorem smale_beta_is_newton_step_size f x0 df args d0 rest fx dfx :
  df = d0 :: rest ->
  f (x0 :: args) = Ok fx ->
  d0 (x0 :: args) = Ok dfx ->
  dfx <> C0 ->
  outcome (smale_beta f x0 df args) = Ok (np_abs (Cdiv fx dfx)) /\
  np_abs (Cdiv fx dfx) = np_abs fx / np_abs dfx /\
  trace (smale_beta f x0 df args) =
    [EvCall TargetF (x0 :: args); EvCall (Deriv 0) (x0 :: args)].
Proof.
  intros Hdf Hf Hd Hnz.
  rewrite (smale_beta_run f x0 df args d0 rest fx dfx Hdf Hf Hd Hnz).
  repeat split. now apply np_abs_Cdiv.
Qed.

Lemma smale_beta_is_newton_step_size_witness :
  outcome (smale_beta cubic_f (RtoC 1) cubic_df [RtoC 1]) =
    Ok (np_abs (Cdiv (Csub (Cmul (RtoC 1) (Cmul (RtoC 1) (RtoC 1))) (RtoC 1))
                     (Cmul (RtoC 3) (Cmul (RtoC 1) (RtoC 1))))) /\
  np_abs (Cdiv (Csub (Cmul (RtoC 1) (Cmul (RtoC 1) (RtoC 1))) (RtoC 1))
               (Cmul (RtoC 3) (Cmul (RtoC 1) (RtoC 1)))) =
    np_abs (Csub (Cmul (RtoC 1) (Cmul (RtoC 1) (RtoC 1))) (RtoC 1)) /
    np_abs (Cmul (RtoC 3) (Cmul (RtoC 1) (RtoC 1))) /\
  trace (smale_beta cubic_f (RtoC 1) cubic_df [RtoC 1]) =
    [EvCall TargetF [RtoC 1; RtoC 1]; EvCall (Deriv 0) [RtoC 1; RtoC 1]].
Proof.
  eapply (smale_beta_is_newton_step_size cubic_f (RtoC 1) cubic_df [RtoC 1]).
  - reflexivity.
  - reflexivity.
  - reflexivity.
  - apply cubic_d0_at_1.
Defined.

(** C6.  Called with fewer than two derivatives, [smale_gamma] raises and
    returns no value.  The exception is [ValueError] (the negative dimension
    when [df] is empty, the maximum of the empty array when [df[0]] returned
    a nonzero value); with one derivative it is otherwise what evaluating
    [df[0]] raised, or [ZeroDivisionError] when [df[0]] returned zero. *)
Theorem smale_gamma_too_few_derivatives f x0 df args :
  (length df < 2)%nat ->
  exists e,
    outcome (smale_gamma f x0 df args) = Raise e /\
    (e = ValueError \/
     exists d0, df = [d0] /\
       (d0 (x0 :: args) = Raise e \/
        (d0 (x0 :: args) = Ok C0 /\ e = ZeroDivisionError))).
Proof.
  intros Hlen. destruct df as [| d0 [| d1 rest]]; [| | simpl in Hlen; lia].
  - exists ValueError. split; [reflexivity | now left].
  - unfold smale_gamma, call, getitem, outcome. simpl.
    destruct (d0 (x0 :: args)) as [v | e] eqn:Hd; simpl.
    + unfold py_div. destruct (C_eq_dec v C0) as [-> | Hv]; simpl.
      * exists ZeroDivisionError. split; [reflexivity |].
        right. exists d0. split; [reflexivity |]. right. now split.
      * exists ValueError. split; [reflexivity | now left].
    + exists e. split; [reflexivity |].
      right. exists d0. split; [reflexivity |]. now left.
Qed.

Lemma smale_gamma_too_few_derivatives_witness :
  exists e,
    outcome (smale_gamma cubic_f (RtoC 1) [] [RtoC 1]) = Raise e /\
    (e = ValueError \/
     exists d0, [] = [d0] /\
       (d0 [RtoC 1; RtoC 1] = Raise e \/
        (d0 [RtoC 1; RtoC 1] = Ok C0 /\ e = ZeroDivisionError))).
Proof.
  apply (smale_gamma_too_few_derivatives cubic_f (RtoC 1) [] [RtoC 1]).
  simpl. lia.
Defined.

(** C7.  With fewer than two derivatives ([df] omitted included),
    [smale_newton] emits the 'not enough derivatives' warning, evaluates no
    callable of its own (the certification is skipped), and goes straight to
    the solver. *)
Theorem smale_newton_insufficient_derivatives
    newton f x0 df args tol maxiter :
  (length df < 2)%nat ->
  let run := smale_newton newton f x0 df args tol maxiter in
  trace run = [EvWarn NotEnoughDerivatives;
               EvNewton f x0 (hd_error df) args tol maxiter] /\
  (forall who a, ~ In (EvCall who a) (trace run)) /\
  outcome run = newton f x0 (hd_error df) args tol maxiter.
Proof.
  intros Hlen run. subst run.
  rewrite (smale_newton_uncertified _ _ _ _ _ _ _ Hlen).
  unfold trace, outcome. cbn [fst snd]. repeat split.
  intros who a [H | [H | []]]; discriminate.
Qed.

Lemma smale_newton_insufficient_derivatives_witness :
  let run := smale_newton solver_returning_x0 cubic_f (RtoC 10) []
               [RtoC 1] default_tol default_maxiter in
  trace run = [EvWarn NotEnoughDerivatives;
               EvNewton cubic_f (RtoC 10) None [RtoC 1]
                 default_tol default_maxiter] /\
  (forall who a, ~ In (EvCall who a) (trace run)) /\
  outcome run = Ok (RtoC 10).
Proof.
  apply (smale_newton_insufficient_derivatives solver_returning_x0 cubic_f
           (RtoC 10) [] [RtoC 1] default_tol default_maxiter).
  simpl. lia.
Defined.

(** C8.  Whenever they return, [smale_beta], [smale_gamma] and
    [smale_alpha] return non-negative reals, for complex-valued callables as
    for real-valued ones. *)
Theorem estimators_are_nonnegative f x0 df args :
  (forall b, outcome (smale_beta f x0 df args) = Ok b -> 0 <= b) /\
  (forall g, outcome (smale_gamma f x0 df args) = Ok g -> 0 <= g) /\
  (forall a, outcome (smale_alpha f x0 df args) = Ok a -> 0 <= a).
Proof.
  split; [| split].
  - intros b. apply smale_beta_nonneg.
  - intros g. apply smale_gamma_nonneg.
  - intros a Ha. apply smale_alpha_outcome in Ha as (b & g & Hb & Hg & ->).
    apply Rmult_le_pos;
      [eapply smale_beta_nonneg | eapply smale_gamma_nonneg]; eassumption.
Qed.

Lemma estimators_are_nonnegative_witness :
  outcome (smale_beta cubic_f (RtoC 1) cubic_df [RtoC 1]) =
    Ok (np_abs (Cdiv (Csub (Cmul (RtoC 1) (Cmul (RtoC 1) (RtoC 1))) (RtoC 1))
                     (nth 0 (cubic_vals (RtoC 1)) C0))) /\
  0 <= np_abs (Cdiv (Csub (Cmul (RtoC 1) (Cmul (RtoC 1) (RtoC 1))) (RtoC 1))
                    (nth 0 (cubic_vals (RtoC 1)) C0)).
Proof.
  assert (H : outcome (smale_beta cubic_f (RtoC 1) cubic_df [RtoC 1]) =
    Ok (np_abs (Cdiv (Csub (Cmul (RtoC 1) (Cmul (RtoC 1) (RtoC 1))) (RtoC 1))
                     (nth 0 (cubic_vals (RtoC 1)) C0)))).
  { rewrite (smale_beta_run cubic_f (RtoC 1) cubic_df [RtoC 1] _ _ _ _
               eq_refl eq_refl eq_refl cubic_d0_at_1). reflexivity. }
  split; [exact H |].
  exact (proj1 (estimators_are_nonnegative cubic_f (RtoC 1) cubic_df [RtoC 1])
           _ H).
Defined.

(** C9.  [smale_gamma] never evaluates [f]: its result and its trace are the
    same for any two target functions, and no evaluation of [f] occurs in
    the trace. *)
Theorem smale_gamma_ignores_f f1 f2 x0 df args :
  smale_gamma f1 x0 df args = smale_gamma f2 x0 df args /\
  (forall a, ~ In (EvCall TargetF a) (trace (smale_gamma f1 x0 df args))).
Proof.
  split; [reflexivity |].
  intros a Ha.
  pose proof (smale_gamma_trace f1 x0 df args) as H.
  rewrite Forall_forall in H. destruct (H _ Ha) as (k & a' & Heq).
  discriminate.
Qed.

(** C10.  [smale_beta] evaluates no derivative beyond the first: two
    nonempty derivative lists with the same first entry give the same result
    and trace, and no evaluation of [df[k]], [k >= 1], occurs in the
    trace. *)
Theorem smale_beta_uses_first_derivative_only f x0 df1 df2 args :
  (1 <= length df1)%nat -> (1 <= length df2)%nat ->
  hd_error df1 = hd_error df2 ->
  smale_beta f x0 df1 args = smale_beta f x0 df2 args /\
  (forall k a, (1 <= k)%nat ->
     ~ In (EvCall (Deriv k) a) (trace (smale_beta f x0 df1 args))).
Proof.
  intros H1 H2 Hhd. split.
  - unfold smale_beta, getitem.
    destruct df1 as [| d1 r1]; [simpl in H1; lia |].
    destruct df2 as [| d2 r2]; [simpl in H2; lia |].
    simpl in Hhd. injection Hhd as ->. reflexivity.
  - intros k a Hk Hin.
    pose proof (smale_beta_trace f x0 df1 args) as H.
    rewrite Forall_forall in H.
    destruct (H _ Hin) as (a' & [Heq | Heq]); [discriminate |].
    injection Heq as Hk0 _. lia.
Qed.

Lemma smale_beta_uses_first_derivative_only_witness :
  smale_beta cubic_f (RtoC 1) cubic_df [RtoC 1] =
  smale_beta cubic_f (RtoC 1) (firstn 1 cubic_df) [RtoC 1] /\
  (forall k a, (1 <= k)%nat ->
     ~ In (EvCall (Deriv k) a)
          (trace (smale_beta cubic_f (RtoC 1) cubic_df [RtoC 1]))).
Proof.
  apply (smale_beta_uses_first_derivative_only cubic_f (RtoC 1) cubic_df
           (firstn 1 cubic_df) [RtoC 1]).
  - simpl. lia.
  - simpl. lia.
  - reflexivity.
Defined.

(** ** Further properties of the estimators *)

Lemma call_Ok who (g : callable) a v :
  outcome (call who g a) = Ok v -> g a = Ok v.
Proof. intros H. exact H. Qed.

Lemma lift_Ok {A} (r : res A) v : outcome (lift r) = Ok v -> r = Ok v.
Proof. intros H. exact H. Qed.

Lemma py_div_Ok_inv a b q : py_div a b = Ok q -> b <> C0 /\ q = Cdiv a b.
Proof.
  unfold py_div. destruct (C_eq_dec b C0); [discriminate |].
  intros [= <-]. now split.
Qed.

Lemma getitem_Ok_inv {A} (l : list A) i x :
  getitem l i = Ok x -> nth_error l i = Some x.
Proof.
  unfold getitem. destruct (nth_error l i); [| discriminate].
  now intros [= ->].
Qed.


Lemma for_each_Ok_each {S} ks (body : nat -> S -> M S) : forall s s',
  outcome (for_each ks body s) = Ok s' ->
  Forall (fun k => exists s1 s2, outcome (body k s1) = Ok s2) ks.
Proof.
  induction ks as [| k ks IH]; intros s s' H; [constructor |].
  simpl in H. apply outcome_bind_Ok in H as (s1 & H1 & H2).
  constructor; [now exists s, s1 | eapply IH; exact H2].
Qed.

Lemma list_update_length {A} (l : list A) i v :
  length (list_update l i v) = length l.
Proof.
  revert i. induction l as [| h t IH]; intros i; [reflexivity |].
  destruct i; simpl; [reflexivity | now rewrite IH].
Qed.

Lemma gamma_step_Ok_inv df a k s s' :
  outcome (gamma_step df a k s) = Ok s' ->
  (exists dk v, nth_error df k = Some dk /\ dk a = Ok v) /\
  length (snd s') = length (snd s).
Proof.
  destruct s as [scale gammas]. unfold gamma_step. cbn [snd]. intros H.
  apply outcome_bind_Ok in H as (sc & _ & H).
  apply outcome_bind_Ok in H as (dk & Hdk & H).
  apply lift_Ok, getitem_Ok_inv in Hdk.
  apply outcome_bind_Ok in H as (v & Hv & H). apply call_Ok in Hv.
  apply outcome_bind_Ok in H as (e & _ & H).
  apply outcome_bind_Ok in H as (gs & Hset & H).
  injection H as <-. cbn [snd]. split; [now exists dk, v |].
  apply lift_Ok in Hset. unfold setitem in Hset.
  destruct (k - 1 <? length gammas)%nat; [| discriminate].
  injection Hset as <-. apply list_update_length.
Qed.

Lemma returns_at_build a df :
  (forall k, (k < length df)%nat ->
     exists d v, nth_error df k = Some d /\ d a = Ok v) ->
  exists vals, returns_at a df vals.
Proof.
  induction df as [| d df IH]; intros H.
  - exists []. constructor.
  - destruct (H 0%nat) as (d' & v & Hnth & Hd); [simpl; lia |].
    simpl in Hnth. injection Hnth as <-.
    destruct IH as (vals & Hvals).
    { intros k Hk. apply (H (S k)). simpl. lia. }
    exists (v :: vals). now constructor.
Qed.

Lemma returns_at_length a df vals :
  returns_at a df vals -> length vals = length df.
Proof. intros H. symmetry. eapply Forall2_length. exact H. Qed.

Lemma smale_gamma_Ok_inv f x0 df args g :
  outcome (smale_gamma f x0 df args) = Ok g ->
  (2 <= length df)%nat /\
  exists vals, returns_at (x0 :: args) df vals /\ nth 0 vals C0 <> C0.
Proof.
  unfold smale_gamma. intros H.
  apply outcome_bind_Ok in H as (gammas & Hz & H). apply lift_Ok in Hz.
  apply outcome_bind_Ok in H as (d0 & Hd0 & H).
  apply lift_Ok, getitem_Ok_inv in Hd0.
  apply outcome_bind_Ok in H as (dfx0 & Hdfx0 & H). apply call_Ok in Hdfx0.
  apply outcome_bind_Ok in H as (scale & Hsc & H).
  apply lift_Ok, py_div_Ok_inv in Hsc as [Hnz _].
  apply outcome_bind_Ok in H as (s & Hloop & H). apply lift_Ok in H.
  assert (Hgl : length gammas = (length df - 1)%nat).
  { unfold np_zeros in Hz.
    destruct (Z.of_nat (length df) - 1 <? 0)%Z; [discriminate |].
    injection Hz as <-. rewrite repeat_length. lia. }
  assert (Hsl : length (snd s) = (length df - 1)%nat).
  { eapply (for_each_invariant
              (fun s => length (snd s) = (length df - 1)%nat));
      [| | exact Hloop]; [| exact Hgl].
    intros k s1 s2 Hs1 Hstep.
    apply gamma_step_Ok_inv in Hstep as [_ Hlen]. congruence. }
  assert (Hlen : (2 <= length df)%nat).
  { unfold np_max in H. destruct (snd s); [discriminate |].
    simpl in Hsl. lia. }
  split; [exact Hlen |].
  apply for_each_Ok_each in Hloop. rewrite Forall_forall in Hloop.
  destruct (returns_at_build (x0 :: args) df) as (vals & Hvals).
  { intros k Hk. destruct k as [| k].
    - now exists d0, dfx0.
    - destruct (Hloop (S k)) as (s1 & s2 & Hstep).
      { unfold range. apply in_seq. unfold callable in *. lia. }
      now apply gamma_step_Ok_inv in Hstep as [Hex _]. }
  exists vals. split; [exact Hvals |].
  destruct (returns_at_nth _ _ _ 0 Hvals) as (d & Hnth & Hd); [lia |].
  rewrite Hd0 in Hnth. injection Hnth as <-.
  rewrite Hdfx0 in Hd. injection Hd as <-. exact Hnz.
Qed.




(** With fewer than two derivatives [smale_alpha] never returns a value:
    called directly, it fails where [smale_newton] would only warn. *)
Theorem smale_alpha_too_few_derivatives f x0 df args :
  (length df < 2)%nat ->
  exists e, outcome (smale_alpha f x0 df args) = Raise e.
Proof.
  intros Hlen.
  destruct (outcome (smale_alpha f x0 df args)) as [a | e] eqn:Ha;
    [| now exists e].
  apply smale_alpha_outcome in Ha as (b & g & _ & Hg & _).
  apply smale_gamma_Ok_inv in Hg as (Hlen2 & _). lia.
Qed.

Lemma smale_alpha_too_few_derivatives_witness :
  exists e,
    outcome (smale_alpha cubic_f (RtoC 1) (firstn 1 cubic_df) [RtoC 1]) =
    Raise e.
Proof.
  apply (smale_alpha_too_few_derivatives cubic_f (RtoC 1)
           (firstn 1 cubic_df) [RtoC 1]).
  simpl. lia.
Defined.

Section NewtonProperties.

Variable newton :
  callable -> C -> option callable -> list C -> R -> Z -> res C.

(** An exception raised while certifying passes through [smale_newton]:
    no warning is emitted and the solver is not invoked. *)
Theorem smale_newton_propagates_certification_error
    f x0 df args tol maxiter e :
  (2 <= length df)%nat ->
  outcome (smale_alpha f x0 df args) = Raise e ->
  let run := smale_newton newton f x0 df args tol maxiter in
  outcome run = Raise e /\
  trace run = trace (smale_alpha f x0 df args) /\
  count_newton (trace run) = 0%nat /\
  count_warn (trace run) = 0%nat.
Proof.
  intros Hlen Ha run. subst run.
  rewrite (smale_newton_certification_raises newton _ _ _ _ tol maxiter _ Hlen Ha).
  unfold outcome at 1. unfold trace at 1 3 4. cbn [fst snd].
  pose proof (smale_alpha_trace f x0 df args) as Hcalls.
  repeat split; [now apply count_newton_calls |].
  induction Hcalls as [| ev t (who & a & ->) _ IH]; simpl; [reflexivity | exact IH].
Qed.

(** The solver is invoked at most once, and exactly once precisely when the
    certification raises nothing: fewer than two derivatives, or
    [smale_alpha] returns. *)
Theorem smale_newton_reaches_solver_iff f x0 df args tol maxiter :
  let run := smale_newton newton f x0 df args tol maxiter in
  (count_newton (trace run) <= 1)%nat /\
  (count_newton (trace run) = 1%nat <->
   (length df < 2)%nat \/
   exists alpha, outcome (smale_alpha f x0 df args) = Ok alpha).
Proof.
  intros run. subst run.
  destruct (Nat.lt_ge_cases (length df) 2) as [Hlt | Hge].
  - rewrite (smale_newton_uncertified newton _ _ _ _ tol maxiter Hlt).
    unfold trace. simpl. split; [lia |]. split; [now left | reflexivity].
  - destruct (outcome (smale_alpha f x0 df args)) as [alpha | e] eqn:Ha.
    + rewrite (smale_newton_certified newton _ _ _ _ tol maxiter _ Hge Ha).
      unfold trace at 1 3. cbn [fst].
      rewrite !count_newton_app,
        (count_newton_calls _ (smale_alpha_trace f x0 df args)).
      assert (Hc : count_newton
                (if Rlt_dec alpha_star alpha
                 then [EvWarn NotApproximateSolution] else []) = 0%nat)
        by (destruct (Rlt_dec alpha_star alpha); reflexivity).
      rewrite Hc. simpl. split; [lia |].
      split; [intros _; right; now exists alpha | reflexivity].
    + rewrite (smale_newton_certification_raises newton _ _ _ _ tol maxiter
                 _ Hge Ha).
      unfold trace at 1 3. cbn [fst].
      rewrite (count_newton_calls _ (smale_alpha_trace f x0 df args)).
      split; [lia |]. split; [discriminate |].
      intros [Hlt | (alpha & Halpha)]; [lia | discriminate].
Qed.

End NewtonProperties.

Lemma smale_newton_propagates_certification_error_witness :
  let run := smale_newton solver_returning_x0 cubic_f (RtoC 0) cubic_df
               [RtoC 1] default_tol default_maxiter in
  outcome run = Raise ZeroDivisionError /\
  trace run = trace (smale_alpha cubic_f (RtoC 0) cubic_df [RtoC 1]) /\
  count_newton (trace run) = 0%nat /\
  count_warn (trace run) = 0%nat.
Proof.
  apply (smale_newton_propagates_certification_error solver_returning_x0
           cubic_f (RtoC 0) cubic_df [RtoC 1] default_tol default_maxiter
           ZeroDivisionError).
  - simpl. lia.
  - rewrite cubic_alpha_at_0. reflexivity.
Defined.

(** When nothing raises, [smale_alpha] evaluates [f] once, [df[0]] twice
    (once for beta, once for gamma) and every further derivative once, in
    that order. *)
Theorem smale_alpha_evaluations f x0 df args fx vals :
  f (x0 :: args) = Ok fx ->
  returns_at (x0 :: args) df vals ->
  (2 <= length df)%nat ->
  nth 0 vals C0 <> C0 ->
  trace (smale_alpha f x0 df args) = alpha_calls (x0 :: args) (length df).
Proof.
  intros Hf Hret Hlen Hnz.
  destruct df as [| d0 rest] eqn:Hdf; [simpl in Hlen; lia |]. rewrite <- Hdf in *.
  assert (Hd0 : d0 (x0 :: args) = Ok (nth 0 vals C0)).
  { destruct (returns_at_nth _ df vals 0 Hret) as (d & Hnth & Hd); [lia |].
    subst df. simpl in Hnth. now injection Hnth as <-. }
  unfold smale_alpha.
  rewrite (smale_beta_run f x0 df args d0 rest fx _ Hdf Hf Hd0 Hnz).
  rewrite (smale_gamma_run f x0 df args vals Hret Hlen Hnz).
  unfold alpha_calls, bind, ret, trace.
  destruct (np_max _); cbn [fst app]; now rewrite ?app_nil_r.
Qed.

Lemma smale_alpha_evaluations_witness :
  trace (smale_alpha cubic_f (RtoC 1) cubic_df [RtoC 1]) =
  alpha_calls [RtoC 1; RtoC 1] (length cubic_df).
Proof.
  apply (smale_alpha_evaluations cubic_f (RtoC 1) cubic_df [RtoC 1] _
           (cubic_vals (RtoC 1)) eq_refl).
  - apply cubic_returns.
  - simpl. lia.
  - apply cubic_d0_at_1.
Defined.

(** Every callable [smale_alpha] evaluates receives exactly
    [(x0,) + args], whatever happens afterwards. *)
Theorem smale_alpha_passes_args_unchanged f x0 df args :
  Forall (is_call_with (x0 :: args)) (trace (smale_alpha f x0 df args)).
Proof.
  assert (Hcall : forall who g,
            Forall (is_call_with (x0 :: args)) (trace (call who g (x0 :: args)))).
  { intros who g. repeat constructor. now exists who. }
  unfold smale_alpha.
  apply trace_bind_Forall; [| intros b; apply trace_bind_Forall].
  - unfold smale_beta.
    apply trace_bind_Forall; [apply Hcall | intros fx].
    apply trace_bind_Forall; [apply trace_lift | intros d0].
    apply trace_bind_Forall; [apply Hcall | intros dfx].
    apply trace_bind_Forall; [apply trace_lift | intros q; apply trace_ret].
  - unfold smale_gamma.
    apply trace_bind_Forall; [apply trace_lift | intros gammas].
    apply trace_bind_Forall; [apply trace_lift | intros d0].
    apply trace_bind_Forall; [apply Hcall | intros dfx0].
    apply trace_bind_Forall; [apply trace_lift | intros scale].
    apply trace_bind_Forall; [| intros s; apply trace_lift].
    apply for_each_trace_Forall. intros k [sc gs]. unfold gamma_step.
    apply trace_bind_Forall; [apply trace_lift | intros sc'].
    apply trace_bind_Forall; [apply trace_lift | intros dk].
    apply trace_bind_Forall; [apply Hcall | intros v].
    apply trace_bind_Forall; [apply trace_lift | intros e].
    apply trace_bind_Forall; [apply trace_lift | intros gs'; apply trace_ret].
  - intros g. apply trace_ret.
Qed.

Lemma count_warn_app t1 t2 :
  count_warn (t1 ++ t2) = (count_warn t1 + count_warn t2)%nat.
Proof.
  induction t1 as [| e t1 IH]; simpl; [reflexivity |].
  destruct e; simpl; now rewrite IH.
Qed.

Lemma count_warn_calls t : Forall is_call t -> count_warn t = 0%nat.
Proof.
  induction 1 as [| e t (who & a & ->) _ IH]; simpl; [reflexivity | exact IH].
Qed.

Lemma calls_hold_no_warning t w : Forall is_call t -> ~ In (EvWarn w) t.
Proof.
  intros Hcalls Hin. rewrite Forall_forall in Hcalls.
  destruct (Hcalls _ Hin) as (who & a & H). discriminate.
Qed.

Section WarningProperties.

Variable newton :
  callable -> C -> option callable -> list C -> R -> Z -> res C.

(** A call of [smale_newton] emits at most one warning; it is the
    'not enough derivatives' one exactly when fewer than two derivatives
    are given, and the 'may not be an approximate solution' one exactly
    when at least two are given and alpha is computed above the
    threshold. *)
Theorem smale_newton_warns_at_most_once f x0 df args tol maxiter :
  let run := smale_newton newton f x0 df args tol maxiter in
  (count_warn (trace run) <= 1)%nat /\
  (In (EvWarn NotEnoughDerivatives) (trace run) <-> (length df < 2)%nat) /\
  (In (EvWarn NotApproximateSolution) (trace run) <->
   (2 <= length df)%nat /\
   exists alpha, outcome (smale_alpha f x0 df args) = Ok alpha /\
                 alpha_star < alpha).
Proof.
  intros run. subst run.
  pose proof (smale_alpha_trace f x0 df args) as Hcalls.
  destruct (Nat.lt_ge_cases (length df) 2) as [Hlt | Hge].
  - rewrite (smale_newton_uncertified newton _ _ _ _ tol maxiter Hlt).
    unfold trace. cbn [fst]. split; [simpl; lia |]. split.
    + split; [intros _; exact Hlt | intros _; now left].
    + split; [| intros [H _]; lia].
      intros [H | [H | []]]; discriminate.
  - destruct (outcome (smale_alpha f x0 df args)) as [alpha | e] eqn:Ha.
    + rewrite (smale_newton_certified newton _ _ _ _ tol maxiter _ Hge Ha).
      unfold trace at 1 3 5. cbn [fst]. split; [| split].
      * rewrite !count_warn_app, (count_warn_calls _ Hcalls).
        destruct (Rlt_dec alpha_star alpha); simpl; lia.
      * split; [| lia]. intros H.
        apply in_app_or in H as [H | H];
          [now apply calls_hold_no_warning in H |].
        apply in_app_or in H as [H | [H | []]]; [| discriminate].
        destruct (Rlt_dec alpha_star alpha); [| contradiction].
        destruct H as [H | []]. discriminate.
      * split.
        -- intros H. split; [exact Hge |]. exists alpha. split; [reflexivity |].
           apply in_app_or in H as [H | H];
             [now apply calls_hold_no_warning in H |].
           apply in_app_or in H as [H | [H | []]]; [| discriminate].
           destruct (Rlt_dec alpha_star alpha); [assumption | contradiction].
        -- intros (_ & alpha' & [= <-] & Hlt).
           apply in_or_app. right. apply in_or_app. left.
           destruct (Rlt_dec alpha_star alpha); [now left | contradiction].
    + rewrite (smale_newton_certification_raises newton _ _ _ _ tol maxiter
                 _ Hge Ha).
      unfold trace at 1 3 5. cbn [fst]. split; [| split].
      * rewrite (count_warn_calls _ Hcalls). lia.
      * split; [| lia]. intros H. now apply calls_hold_no_warning in H.
      * split; [intros H; now apply calls_hold_no_warning in H |].
        intros (_ & alpha & Habs & _). discriminate.
Qed.

End WarningProperties.

(** ** Closed forms and algebraic properties *)

Lemma Cnorm2_Cmul z w : Cnorm2 (Cmul z w) = Cnorm2 z * Cnorm2 w.
Proof. destruct z, w. unfold Cnorm2, Cmul. simpl. ring. Qed.

Lemma np_abs_Cmul z w : np_abs (Cmul z w) = np_abs z * np_abs w.
Proof.
  unfold np_abs. rewrite Cnorm2_Cmul.
  apply sqrt_mult; apply Cnorm2_nonneg.
Qed.

Lemma np_abs_C0 : np_abs C0 = 0.
Proof.
  unfold np_abs, Cnorm2, C0. simpl.
  replace (0 * 0 + 0 * 0) with 0 by ring. apply sqrt_0.
Qed.

Lemma np_abs_pos z : z <> C0 -> 0 < np_abs z.
Proof. intros Hz. apply sqrt_lt_R0, Cnorm2_pos, Hz. Qed.

Lemma Cmul_neq_0 z w : z <> C0 -> w <> C0 -> Cmul z w <> C0.
Proof.
  intros Hz Hw H. apply (f_equal Cnorm2) in H. rewrite Cnorm2_Cmul in H.
  pose proof (Cnorm2_pos z Hz) as Hpz. pose proof (Cnorm2_pos w Hw) as Hpw.
  assert (Hz0 : Cnorm2 C0 = 0) by (unfold Cnorm2, C0; simpl; ring).
  assert (Hp : 0 < Cnorm2 z * Cnorm2 w) by now apply Rmult_lt_0_compat.
  lra.
Qed.

Lemma Cmul_Cdiv z w : w <> C0 -> Cmul (Cdiv z w) w = z.
Proof.
  intros Hw. pose proof (Cnorm2_pos w Hw) as Hn.
  destruct z as [x y], w as [a b]. unfold Cmul, Cdiv, Cnorm2 in *.
  simpl in *. f_equal; field; lra.
Qed.

Lemma Cdiv_Cmul q w : w <> C0 -> Cdiv (Cmul q w) w = q.
Proof.
  intros Hw. pose proof (Cnorm2_pos w Hw) as Hn.
  destruct q as [x y], w as [a b]. unfold Cmul, Cdiv, Cnorm2 in *.
  simpl in *. f_equal; field; lra.
Qed.

Lemma Cmul_comm z w : Cmul z w = Cmul w z.
Proof. destruct z, w. unfold Cmul. simpl. f_equal; ring. Qed.

Lemma Cmul_assoc z w u : Cmul z (Cmul w u) = Cmul (Cmul z w) u.
Proof. destruct z, w, u. unfold Cmul. simpl. f_equal; ring. Qed.

(** A common nonzero factor cancels in a quotient. *)
Lemma Cdiv_cancel c z w :
  c <> C0 -> w <> C0 -> Cdiv (Cmul c z) (Cmul c w) = Cdiv z w.
Proof.
  intros Hc Hw.
  rewrite <- (Cmul_Cdiv z w Hw) at 1.
  rewrite (Cmul_comm c (Cmul _ w)), <- Cmul_assoc, (Cmul_comm w c).
  apply Cdiv_Cmul. now apply Cmul_neq_0.
Qed.

Lemma np_power_one x : 0 <= x -> np_power x (1 / INR 1) = x.
Proof.
  intros Hx. unfold np_power. simpl INR.
  replace (1 / 1) with 1 by field.
  destruct (Rle_dec x 0).
  - destruct (Req_dec_T 1 0); lra.
  - apply Rpower_1. lra.
Qed.

(** What [smale_alpha] computes when nothing raises. *)
Lemma smale_alpha_run f x0 df args fx vals :
  f (x0 :: args) = Ok fx ->
  returns_at (x0 :: args) df vals ->
  (2 <= length df)%nat ->
  nth 0 vals C0 <> C0 ->
  exists g,
    np_max (map (loop_term (nth 0 vals C0) vals) (seq 1 (length df - 1))) =
      Ok g /\
    outcome (smale_gamma f x0 df args) = Ok g /\
    outcome (smale_beta f x0 df args) =
      Ok (np_abs (Cdiv fx (nth 0 vals C0))) /\
    outcome (smale_alpha f x0 df args) =
      Ok (np_abs (Cdiv fx (nth 0 vals C0)) * g).
Proof.
  intros Hf Hret Hlen Hnz.
  destruct df as [| d0 rest] eqn:Hdf; [simpl in Hlen; lia |]. rewrite <- Hdf in *.
  assert (Hd0 : d0 (x0 :: args) = Ok (nth 0 vals C0)).
  { destruct (returns_at_nth _ df vals 0 Hret) as (d & Hnth & Hd); [lia |].
    subst df. simpl in Hnth. now injection Hnth as <-. }
  pose proof (smale_beta_run f x0 df args d0 rest fx _ Hdf Hf Hd0 Hnz) as Hb.
  pose proof (smale_gamma_run f x0 df args vals Hret Hlen Hnz) as Hg.
  destruct (np_max (map (loop_term (nth 0 vals C0) vals)
                        (seq 1 (length df - 1)))) as [g | e] eqn:Hmax.
  - exists g. split; [reflexivity |].
    assert (Hgo : outcome (smale_gamma f x0 df args) = Ok g) by now rewrite Hg.
    assert (Hbo : outcome (smale_beta f x0 df args) =
                  Ok (np_abs (Cdiv fx (nth 0 vals C0)))) by now rewrite Hb.
    split; [exact Hgo |]. split; [exact Hbo |].
    apply smale_alpha_outcome.
    exists (np_abs (Cdiv fx (nth 0 vals C0))), g. now repeat split.
  - exfalso. unfold np_max in Hmax.
    destruct (seq 1 (length df - 1)) as [| k ks] eqn:Hseq; [| discriminate].
    apply (f_equal (@length nat)) in Hseq. rewrite length_seq in Hseq.
    simpl in Hseq. lia.
Qed.

Lemma smale_gamma_max f x0 df args vals :
  returns_at (x0 :: args) df vals ->
  (2 <= length df)%nat ->
  nth 0 vals C0 <> C0 ->
  exists g, outcome (smale_gamma f x0 df args) = Ok g /\
            is_max_of_orders vals (length df) g.
Proof.
  intros Hret Hlen Hnz.
  pose proof (smale_gamma_run f x0 df args vals Hret Hlen Hnz) as Hrun.
  destruct (np_max (map (loop_term (nth 0 vals C0) vals)
                        (seq 1 (length df - 1)))) as [g | e] eqn:Hmax.
  - exists g. split; [now rewrite Hrun |].
    now apply np_max_is_max_of_orders.
  - exfalso. unfold np_max in Hmax.
    destruct (seq 1 (length df - 1)) as [| k ks] eqn:Hseq; [| discriminate].
    apply (f_equal (@length nat)) in Hseq. rewrite length_seq in Hseq.
    simpl in Hseq. lia.
Qed.

Lemma gamma_two_derivatives f x0 d0 d1 args v0 v1 :
  d0 (x0 :: args) = Ok v0 -> d1 (x0 :: args) = Ok v1 -> v0 <> C0 ->
  outcome (smale_gamma f x0 [d0; d1] args) = Ok (np_abs v1 / (2 * np_abs v0)).
Proof.
  intros Hd0 Hd1 Hnz.
  assert (Hret : returns_at (x0 :: args) [d0; d1] [v0; v1])
    by (repeat constructor; assumption).
  rewrite (smale_gamma_run f x0 [d0; d1] args [v0; v1] Hret (le_n 2) Hnz).
  unfold outcome. cbn [snd length Nat.sub seq map np_max fold_left nth].
  f_equal. unfold loop_term. cbn [nth Nat.add].
  change (fact 2) with 2%nat.
  replace (INR 2) with 2 by (simpl; lra).
  rewrite np_power_one by apply np_abs_nonneg.
  rewrite np_abs_Cdiv by (apply Cmul_RtoC_neq_0; [lra | exact Hnz]).
  rewrite np_abs_Cmul, np_abs_RtoC by lra. reflexivity.
Qed.

(** With exactly two derivatives gamma is [|f''| / (2 |f'|)]. *)
Theorem smale_gamma_two_derivatives f x0 d0 d1 args v0 v1 :
  d0 (x0 :: args) = Ok v0 -> d1 (x0 :: args) = Ok v1 -> v0 <> C0 ->
  outcome (smale_gamma f x0 [d0; d1] args) = Ok (np_abs v1 / (2 * np_abs v0)).
Proof. apply gamma_two_derivatives. Qed.

Lemma smale_gamma_two_derivatives_witness :
  outcome (smale_gamma cubic_f (RtoC 1) (firstn 2 cubic_df) [RtoC 1]) =
  Ok (np_abs (Cmul (RtoC 6) (RtoC 1)) /
      (2 * np_abs (Cmul (RtoC 3) (Cmul (RtoC 1) (RtoC 1))))).
Proof.
  apply (smale_gamma_two_derivatives cubic_f (RtoC 1) _ _ [RtoC 1]).
  - reflexivity.
  - reflexivity.
  - apply cubic_d0_at_1.
Defined.

(** With exactly two derivatives alpha is [|f| |f''| / (2 |f'|^2)]. *)
Theorem smale_alpha_two_derivatives f x0 d0 d1 args fx v0 v1 :
  f (x0 :: args) = Ok fx ->
  d0 (x0 :: args) = Ok v0 -> d1 (x0 :: args) = Ok v1 -> v0 <> C0 ->
  outcome (smale_alpha f x0 [d0; d1] args) =
  Ok (np_abs fx * np_abs v1 / (2 * (np_abs v0 * np_abs v0))).
Proof.
  intros Hf Hd0 Hd1 Hnz.
  apply smale_alpha_outcome.
  exists (np_abs (Cdiv fx v0)), (np_abs v1 / (2 * np_abs v0)).
  split; [| split].
  - now rewrite (smale_beta_run f x0 [d0; d1] args d0 [d1] fx v0 eq_refl Hf Hd0 Hnz).
  - now apply gamma_two_derivatives.
  - rewrite (np_abs_Cdiv _ _ Hnz). pose proof (np_abs_pos v0 Hnz).
    field. lra.
Qed.

Lemma smale_alpha_two_derivatives_witness :
  outcome (smale_alpha cubic_f (RtoC 1) (firstn 2 cubic_df) [RtoC 1]) =
  Ok (np_abs (Csub (Cmul (RtoC 1) (Cmul (RtoC 1) (RtoC 1))) (RtoC 1)) *
      np_abs (Cmul (RtoC 6) (RtoC 1)) /
      (2 * (np_abs (Cmul (RtoC 3) (Cmul (RtoC 1) (RtoC 1))) *
            np_abs (Cmul (RtoC 3) (Cmul (RtoC 1) (RtoC 1)))))).
Proof.
  apply (smale_alpha_two_derivatives cubic_f (RtoC 1) _ _ [RtoC 1]).
  - reflexivity.
  - reflexivity.
  - reflexivity.
  - apply cubic_d0_at_1.
Defined.

Lemma gamma_order_term_app vals vals' k :
  (1 <= k <= length vals)%nat ->
  gamma_order_term (vals ++ vals') k = gamma_order_term vals k.
Proof.
  intros Hk. unfold gamma_order_term.
  now rewrite !app_nth1 by lia.
Qed.

Lemma gamma_grows f x0 df extra args vals vals' g g' :
  returns_at (x0 :: args) df vals ->
  returns_at (x0 :: args) extra vals' ->
  (2 <= length df)%nat ->
  nth 0 vals C0 <> C0 ->
  outcome (smale_gamma f x0 df args) = Ok g ->
  outcome (smale_gamma f x0 (df ++ extra) args) = Ok g' ->
  g <= g'.
Proof.
  intros Hret Hret' Hlen Hnz Hg Hg'.
  pose proof (returns_at_length _ _ _ Hret) as Hvl.
  assert (Hall : returns_at (x0 :: args) (df ++ extra) (vals ++ vals'))
    by now apply Forall2_app.
  assert (Hnz' : nth 0 (vals ++ vals') C0 <> C0)
    by (rewrite app_nth1 by lia; exact Hnz).
  assert (Hlen' : (2 <= length (df ++ extra))%nat)
    by (rewrite length_app; lia).
  destruct (smale_gamma_max f x0 df args vals Hret Hlen Hnz)
    as (g1 & Hg1 & (k & Hk & Hgk) & _).
  destruct (smale_gamma_max f x0 (df ++ extra) args _ Hall Hlen' Hnz')
    as (g2 & Hg2 & _ & Hub).
  rewrite Hg in Hg1. injection Hg1 as <-.
  rewrite Hg' in Hg2. injection Hg2 as <-.
  rewrite Hgk, <- (gamma_order_term_app vals vals' k) by lia.
  apply Hub. rewrite length_app. lia.
Qed.

(** Supplying further derivatives never lowers gamma: the value computed
    from a prefix of the derivative list is a lower bound. *)
Theorem smale_gamma_grows_with_derivatives f x0 df extra args vals vals' :
  returns_at (x0 :: args) df vals ->
  returns_at (x0 :: args) extra vals' ->
  (2 <= length df)%nat ->
  nth 0 vals C0 <> C0 ->
  exists g g',
    outcome (smale_gamma f x0 df args) = Ok g /\
    outcome (smale_gamma f x0 (df ++ extra) args) = Ok g' /\
    g <= g'.
Proof.
  intros Hret Hret' Hlen Hnz.
  pose proof (returns_at_length _ _ _ Hret) as Hvl.
  destruct (smale_gamma_max f x0 df args vals Hret Hlen Hnz) as (g & Hg & _).
  destruct (smale_gamma_max f x0 (df ++ extra) args (vals ++ vals'))
    as (g' & Hg' & _).
  { now apply Forall2_app. }
  { rewrite length_app. lia. }
  { rewrite app_nth1 by lia. exact Hnz. }
  exists g, g'. split; [exact Hg |]. split; [exact Hg' |].
  apply (gamma_grows f x0 df extra args vals vals' g g'); assumption.
Qed.

Lemma smale_gamma_grows_with_derivatives_witness :
  exists g g',
    outcome (smale_gamma cubic_f (RtoC 1) (firstn 2 cubic_df) [RtoC 1]) =
      Ok g /\
    outcome (smale_gamma cubic_f (RtoC 1)
               (firstn 2 cubic_df ++ skipn 2 cubic_df) [RtoC 1]) = Ok g' /\
    g <= g'.
Proof.
  apply (smale_gamma_grows_with_derivatives cubic_f (RtoC 1)
           (firstn 2 cubic_df) (skipn 2 cubic_df) [RtoC 1]
           (firstn 2 (cubic_vals (RtoC 1))) (skipn 2 (cubic_vals (RtoC 1)))).
  - repeat constructor.
  - repeat constructor.
  - simpl. lia.
  - apply cubic_d0_at_1.
Defined.

(** Supplying further derivatives never lowers alpha: too few derivatives
    can only underestimate it. *)
Theorem smale_alpha_grows_with_derivatives
    f x0 df extra args fx vals vals' :
  f (x0 :: args) = Ok fx ->
  returns_at (x0 :: args) df vals ->
  returns_at (x0 :: args) extra vals' ->
  (2 <= length df)%nat ->
  nth 0 vals C0 <> C0 ->
  exists a a',
    outcome (smale_alpha f x0 df args) = Ok a /\
    outcome (smale_alpha f x0 (df ++ extra) args) = Ok a' /\
    a <= a'.
Proof.
  intros Hf Hret Hret' Hlen Hnz.
  pose proof (returns_at_length _ _ _ Hret) as Hvl.
  assert (Hnth : nth 0 (vals ++ vals') C0 = nth 0 vals C0)
    by (apply app_nth1; lia).
  destruct (smale_alpha_run f x0 df args fx vals Hf Hret Hlen Hnz)
    as (g & _ & Hg & _ & Ha).
  destruct (smale_alpha_run f x0 (df ++ extra) args fx (vals ++ vals') Hf)
    as (g' & _ & Hg' & _ & Ha').
  { now apply Forall2_app. }
  { rewrite length_app. lia. }
  { rewrite Hnth. exact Hnz. }
  rewrite Hnth in Ha'.
  eexists _, _. split; [exact Ha |]. split; [exact Ha' |].
  apply Rmult_le_compat_l; [apply np_abs_nonneg |].
  apply (gamma_grows f x0 df extra args vals vals' g g'); assumption.
Qed.

Lemma smale_alpha_grows_with_derivatives_witness :
  exists a a',
    outcome (smale_alpha cubic_f (RtoC 1) (firstn 2 cubic_df) [RtoC 1]) =
      Ok a /\
    outcome (smale_alpha cubic_f (RtoC 1)
               (firstn 2 cubic_df ++ skipn 2 cubic_df) [RtoC 1]) = Ok a' /\
    a <= a'.
Proof.
  apply (smale_alpha_grows_with_derivatives cubic_f (RtoC 1)
           (firstn 2 cubic_df) (skipn 2 cubic_df) [RtoC 1] _
           (firstn 2 (cubic_vals (RtoC 1))) (skipn 2 (cubic_vals (RtoC 1)))
           eq_refl).
  - repeat constructor.
  - repeat constructor.
  - simpl. lia.
  - apply cubic_d0_at_1.
Defined.

Lemma returns_at_scaled c a df vals :
  returns_at a df vals ->
  returns_at a (map (scaled c) df) (map (Cmul c) vals).
Proof.
  induction 1 as [| d v df vals Hd _ IH]; simpl; constructor; [| exact IH].
  unfold scaled. now rewrite Hd.
Qed.

Lemma nth_map_Cmul c vals k :
  (k < length vals)%nat ->
  nth k (map (Cmul c) vals) C0 = Cmul c (nth k vals C0).
Proof.
  intros Hk.
  rewrite (nth_indep _ C0 (Cmul c C0)) by (rewrite length_map; exact Hk).
  apply map_nth.
Qed.

Lemma loop_term_scaled c d0 vals k :
  c <> C0 -> d0 <> C0 -> (k < length vals)%nat ->
  loop_term (Cmul c d0) (map (Cmul c) vals) k = loop_term d0 vals k.
Proof.
  intros Hc Hd Hk. unfold loop_term.
  rewrite (nth_map_Cmul _ _ _ Hk).
  set (r := RtoC (INR (fact (k + 1)))).
  rewrite (Cmul_assoc r c d0), (Cmul_comm r c), <- Cmul_assoc.
  rewrite Cdiv_cancel; [reflexivity | exact Hc |].
  apply Cmul_RtoC_neq_0; [apply INR_fact_neq_0 | exact Hd].
Qed.

(** Alpha does not change when [f] and all its derivatives are multiplied
    by the same nonzero constant. *)
Theorem smale_alpha_scale_invariant c f x0 df args fx vals :
  c <> C0 ->
  f (x0 :: args) = Ok fx ->
  returns_at (x0 :: args) df vals ->
  (2 <= length df)%nat ->
  nth 0 vals C0 <> C0 ->
  outcome (smale_alpha (scaled c f) x0 (map (scaled c) df) args) =
  outcome (smale_alpha f x0 df args).
Proof.
  intros Hc Hf Hret Hlen Hnz.
  pose proof (returns_at_length _ _ _ Hret) as Hvl.
  assert (Hnth : nth 0 (map (Cmul c) vals) C0 = Cmul c (nth 0 vals C0))
    by (apply nth_map_Cmul; lia).
  destruct (smale_alpha_run f x0 df args fx vals Hf Hret Hlen Hnz)
    as (g & Hmax & _ & _ & Ha).
  destruct (smale_alpha_run (scaled c f) x0 (map (scaled c) df) args
              (Cmul c fx) (map (Cmul c) vals))
    as (g' & Hmax' & _ & _ & Ha').
  { unfold scaled. now rewrite Hf. }
  { now apply returns_at_scaled. }
  { now rewrite length_map. }
  { rewrite Hnth. now apply Cmul_neq_0. }
  rewrite Ha, Ha'. rewrite Hnth in *. rewrite (Cdiv_cancel _ _ _ Hc Hnz).
  rewrite length_map in Hmax'.
  rewrite (map_ext_in _ (loop_term (nth 0 vals C0) vals)) in Hmax'.
  - rewrite Hmax in Hmax'. now injection Hmax' as <-.
  - intros k Hk. apply in_seq in Hk.
    apply loop_term_scaled; [exact Hc | exact Hnz |].
    unfold callable in *. lia.
Qed.

Lemma smale_alpha_scale_invariant_witness :
  outcome (smale_alpha (scaled (RtoC 2) cubic_f) (RtoC 1)
             (map (scaled (RtoC 2)) cubic_df) [RtoC 1]) =
  outcome (smale_alpha cubic_f (RtoC 1) cubic_df [RtoC 1]).
Proof.
  apply (smale_alpha_scale_invariant (RtoC 2) cubic_f (RtoC 1) cubic_df
           [RtoC 1]
           (Csub (Cmul (RtoC 1) (Cmul (RtoC 1) (RtoC 1))) (RtoC 1))
           (cubic_vals (RtoC 1))).
  - apply RtoC_neq_0. lra.
  - reflexivity.
  - apply cubic_returns.
  - simpl. lia.
  - apply cubic_d0_at_1.
Defined.

Section RootAndIndependence.

Variable newton :
  callable -> C -> option callable -> list C -> R -> Z -> res C.

(** At an exact zero of [f] with a nonzero first derivative, alpha is 0:
    [smale_newton] emits no warning and returns what the solver returns. *)
Theorem smale_newton_silent_at_a_zero f x0 df args tol maxiter vals :
  f (x0 :: args) = Ok C0 ->
  returns_at (x0 :: args) df vals ->
  (2 <= length df)%nat ->
  nth 0 vals C0 <> C0 ->
  let run := smale_newton newton f x0 df args tol maxiter in
  outcome (smale_alpha f x0 df args) = Ok 0 /\
  count_warn (trace run) = 0%nat /\
  outcome run = newton f x0 (hd_error df) args tol maxiter.
Proof.
  intros Hf Hret Hlen Hnz run. subst run.
  destruct (smale_alpha_run f x0 df args C0 vals Hf Hret Hlen Hnz)
    as (g & _ & _ & _ & Ha).
  rewrite (np_abs_Cdiv _ _ Hnz), np_abs_C0 in Ha.
  replace (0 / np_abs (nth 0 vals C0) * g) with 0 in Ha
    by (pose proof (np_abs_pos _ Hnz); field; lra).
  split; [exact Ha |].
  rewrite (smale_newton_certified newton _ _ _ _ tol maxiter _ Hlen Ha).
  unfold outcome at 1. unfold trace at 1. cbn [fst snd].
  split; [| reflexivity].
  rewrite !count_warn_app,
    (count_warn_calls _ (smale_alpha_trace f x0 df args)).
  destruct (Rlt_dec alpha_star 0) as [Hlt | _]; [| reflexivity].
  unfold alpha_star in Hlt. lra.
Qed.

(** The value [smale_newton] returns depends on the derivative list only
    through its first entry: two calls whose certifications raise nothing
    and whose lists start alike have the same result. *)
Theorem smale_newton_result_ignores_higher_derivatives
    f x0 df1 df2 args tol maxiter :
  hd_error df1 = hd_error df2 ->
  ((length df1 < 2)%nat \/
   exists alpha, outcome (smale_alpha f x0 df1 args) = Ok alpha) ->
  ((length df2 < 2)%nat \/
   exists alpha, outcome (smale_alpha f x0 df2 args) = Ok alpha) ->
  outcome (smale_newton newton f x0 df1 args tol maxiter) =
  outcome (smale_newton newton f x0 df2 args tol maxiter).
Proof.
  assert (Hrun : forall df,
    ((length df < 2)%nat \/
     exists alpha, outcome (smale_alpha f x0 df args) = Ok alpha) ->
    outcome (smale_newton newton f x0 df args tol maxiter) =
    newton f x0 (hd_error df) args tol maxiter).
  { intros df H.
    destruct (Nat.lt_ge_cases (length df) 2) as [Hlt | Hge].
    - now rewrite (smale_newton_uncertified newton _ _ _ _ tol maxiter Hlt).
    - destruct H as [Hlt | (alpha & Ha)]; [lia |].
      now rewrite (smale_newton_certified newton _ _ _ _ tol maxiter _ Hge Ha). }
  intros Hhd H1 H2. now rewrite (Hrun df1 H1), (Hrun df2 H2), Hhd.
Qed.

End RootAndIndependence.

Lemma cubic_zero_at_1 :
  cubic_f [RtoC 1; RtoC 1] = Ok C0.
Proof.
  unfold cubic_f, lambda2, Csub, Cmul, RtoC, C0. simpl. do 2 f_equal; ring.
Qed.

Lemma smale_newton_silent_at_a_zero_witness :
  let run := smale_newton solver_returning_x0 cubic_f (RtoC 1) cubic_df
               [RtoC 1] default_tol default_maxiter in
  outcome (smale_alpha cubic_f (RtoC 1) cubic_df [RtoC 1]) = Ok 0 /\
  count_warn (trace run) = 0%nat /\
  outcome run = Ok (RtoC 1).
Proof.
  apply (smale_newton_silent_at_a_zero solver_returning_x0 cubic_f (RtoC 1)
           cubic_df [RtoC 1] default_tol default_maxiter
           (cubic_vals (RtoC 1))).
  - apply cubic_zero_at_1.
  - apply cubic_returns.
  - simpl. lia.
  - apply cubic_d0_at_1.
Defined.

Lemma smale_newton_result_ignores_higher_derivatives_witness :
  outcome (smale_newton solver_returning_x0 cubic_f (RtoC 1) cubic_df
             [RtoC 1] default_tol default_maxiter) =
  outcome (smale_newton solver_returning_x0 cubic_f (RtoC 1)
             (firstn 1 cubic_df) [RtoC 1] default_tol default_maxiter).
Proof.
  apply (smale_newton_result_ignores_higher_derivatives solver_returning_x0
           cubic_f (RtoC 1) cubic_df (firstn 1 cubic_df) [RtoC 1]
           default_tol default_maxiter).
  - reflexivity.
  - right.
    apply (smale_alpha_returns cubic_f (RtoC 1) cubic_df [RtoC 1] _ _ _
             (cubic_vals (RtoC 1)) eq_refl eq_refl).
    + apply cubic_returns.
    + simpl. lia.
    + apply cubic_d0_at_1.
  - left. simpl. lia.
Defined.

(** ** How exceptions surface *)

Lemma for_each_app {S} l1 l2 (body : nat -> S -> M S) : forall s,
  for_each (l1 ++ l2) body s =
  bind (for_each l1 body s) (for_each l2 body).
Proof.
  induction l1 as [| k l1 IH]; intros s.
  - symmetry. apply bind_ret.
  - simpl. destruct (body k s) as [t [s1 | e]]; simpl; [| reflexivity].
    rewrite IH. destruct (for_each l1 body s1) as [t1 [s2 | e]]; simpl.
    + destruct (for_each l2 body s2) as [t2 r]. now rewrite app_assoc.
    + reflexivity.
Qed.

Lemma gamma_step_passes df a d0 k (dk : callable) v gs1 x gs2 :
  nth_error df k = Some dk -> dk a = Ok v -> d0 <> C0 ->
  (1 <= k)%nat -> length gs1 = (k - 1)%nat ->
  exists y,
    gamma_step df a k (scale_at d0 (INR (fact k)), gs1 ++ x :: gs2) =
    ([EvCall (Deriv k) a],
     Ok (scale_at d0 (INR (fact (k + 1))), gs1 ++ y :: gs2)).
Proof.
  intros Hnth Hdk Hd Hk1 Hlen. unfold gamma_step.
  assert (Hr : 1 * INR (k + 1) <> 0).
  { rewrite Rmult_1_l. apply not_0_INR. lia. }
  rewrite (py_div_Ok _ _ (RtoC_neq_0 _ Hr)), bind_lift_Ok.
  rewrite (scale_at_step _ _ _ Hd (INR_fact_neq_0 k) Hr).
  assert (Hfact : 1 * INR (k + 1) * INR (fact k) = INR (fact (k + 1))).
  { rewrite Nat.add_1_r. simpl fact. rewrite <- Nat.add_1_r at 1.
    rewrite Rmult_1_l, <- mult_INR. f_equal. lia. }
  rewrite Hfact. unfold getitem. rewrite Hnth, bind_lift_Ok.
  rewrite (bind_call_Ok _ _ _ _ _ Hdk).
  assert (Hk0 : INR k <> 0) by (apply not_0_INR; lia).
  rewrite (float_div_Ok _ _ Hk0), bind_lift_Ok.
  unfold setitem. rewrite <- Hlen.
  assert (Hlt : (length gs1 <? length (gs1 ++ x :: gs2))%nat = true).
  { apply Nat.ltb_lt. rewrite length_app. simpl. lia. }
  rewrite Hlt, bind_lift_Ok, list_update_app.
  eexists. reflexivity.
Qed.

Lemma gamma_step_raises df a k (dk : callable) e scale gammas :
  nth_error df k = Some dk -> dk a = Raise e ->
  gamma_step df a k (scale, gammas) = ([EvCall (Deriv k) a], Raise e).
Proof.
  intros Hnth Hdk. unfold gamma_step.
  assert (Hr : 1 * INR (k + 1) <> 0).
  { rewrite Rmult_1_l. apply not_0_INR. lia. }
  rewrite (py_div_Ok _ _ (RtoC_neq_0 _ Hr)), bind_lift_Ok.
  unfold getitem. rewrite Hnth, bind_lift_Ok.
  unfold call, bind. now rewrite Hdk.
Qed.

Lemma gamma_loop_prefix df a d0 gs2 :
  d0 <> C0 ->
  forall m i gs1,
  length gs1 = i ->
  (forall k, (S i <= k < S i + m)%nat ->
     exists (dk : callable) v, nth_error df k = Some dk /\ dk a = Ok v) ->
  exists gs1',
    for_each (seq (S i) m) (gamma_step df a)
      (scale_at d0 (INR (fact (S i))), gs1 ++ repeat 0 m ++ gs2) =
    (map (fun k => EvCall (Deriv k) a) (seq (S i) m),
     Ok (scale_at d0 (INR (fact (S (i + m)))), gs1' ++ gs2)).
Proof.
  intros Hd. induction m as [| m IH]; intros i gs1 Hlen Hall.
  - exists gs1. simpl. now rewrite Nat.add_0_r.
  - destruct (Hall (S i)) as (dk & v & Hnth & Hdk); [lia |].
    destruct (gamma_step_passes df a d0 (S i) dk v gs1 0 (repeat 0 m ++ gs2)
                Hnth Hdk Hd) as (y & Hstep); [lia | simpl; lia |].
    destruct (IH (S i) (gs1 ++ [y])) as (gs1' & Hrest).
    { rewrite length_app. simpl. lia. }
    { intros k Hk. apply Hall. lia. }
    exists gs1'. cbn [seq for_each repeat app].
    erewrite bind_Ok by exact Hstep.
    rewrite Nat.add_1_r, <- app_assoc in *. cbn [app] in Hrest.
    rewrite Hrest.
    replace (S i + m)%nat with (i + S m)%nat by lia. reflexivity.
Qed.

(** The exception a derivative [df[j]], [j >= 1], raises surfaces unchanged
    from [smale_gamma], after [df[0]], ..., [df[j]] have been evaluated in
    order and before any later derivative is. *)
Theorem smale_gamma_propagates_derivative_error
    f x0 df args vals j (dj : callable) e :
  (1 <= j)%nat ->
  returns_at (x0 :: args) (firstn j df) vals ->
  nth 0 vals C0 <> C0 ->
  nth_error df j = Some dj ->
  dj (x0 :: args) = Raise e ->
  smale_gamma f x0 df args =
  (map (fun k => EvCall (Deriv k) (x0 :: args)) (seq 0 (S j)), Raise e).
Proof.
  intros Hj Hret Hnz Hnth Hdj.
  assert (Hjlt : (j < length df)%nat).
  { apply nth_error_Some. rewrite Hnth. discriminate. }
  assert (Hpre : forall k, (k < j)%nat ->
            exists dk : callable, nth_error df k = Some dk /\
                       dk (x0 :: args) = Ok (nth k vals C0)).
  { intros k Hk.
    destruct (returns_at_nth _ _ _ k Hret) as (dk & Hdk & Hv).
    { rewrite length_firstn. unfold callable in *. lia. }
    exists dk. split; [| exact Hv].
    now rewrite nth_error_firstn, (proj2 (Nat.ltb_lt k j) Hk) in Hdk. }
  destruct (Hpre 0%nat Hj) as (d0 & Hd0 & Hv0).
  unfold smale_gamma.
  rewrite np_zeros_Ok, bind_lift_Ok by lia.
  unfold getitem. rewrite Hd0, bind_lift_Ok.
  rewrite (bind_call_Ok _ _ _ _ _ Hv0).
  rewrite (py_div_Ok _ _ Hnz), bind_lift_Ok, (scale_at_1 _ Hnz).
  unfold range.
  replace (length df - 1)%nat with ((j - 1) + (length df - j))%nat by lia.
  rewrite seq_app, repeat_app, for_each_app.
  destruct (gamma_loop_prefix df (x0 :: args) (nth 0 vals C0)
              (repeat 0 (length df - j)) Hnz (j - 1) 0 [] eq_refl)
    as (gs1' & Hloop).
  { intros k Hk. destruct (Hpre k) as (dk & Hdk & Hv); [lia |].
    now exists dk, (nth k vals C0). }
  change (INR (fact 1)) with 1 in Hloop. cbn [app] in Hloop.
  rewrite Hloop.
  replace (1 + (j - 1))%nat with j by lia.
  replace (length df - j)%nat with (S (length df - j - 1)) by lia.
  cbn [seq for_each bind].
  rewrite (gamma_step_raises df _ j dj e _ _ Hnth Hdj).
  unfold trace, outcome, bind. cbn [fst snd app].
  assert (Hs : seq 1 j = seq 1 (j - 1) ++ [j]).
  { replace j with (S (j - 1)) at 1 by lia. rewrite seq_S.
    do 2 f_equal. lia. }
  cbn [seq map]. now rewrite Hs, map_app.
Qed.

Lemma smale_gamma_propagates_derivative_error_witness :
  smale_gamma cubic_f (RtoC 1)
    [lambda2 (fun x _ => Cmul (RtoC 3) (Cmul x x));
     lambda1 (fun x => Cmul (RtoC 6) x);
     lambda2 (fun _ _ => RtoC 6)] [RtoC 1] =
  (map (fun k => EvCall (Deriv k) [RtoC 1; RtoC 1]) (seq 0 2),
   Raise TypeError).
Proof.
  apply (smale_gamma_propagates_derivative_error cubic_f (RtoC 1) _ [RtoC 1]
           [Cmul (RtoC 3) (Cmul (RtoC 1) (RtoC 1))] 1
           (lambda1 (fun x => Cmul (RtoC 6) x)) TypeError).
  - lia.
  - repeat constructor.
  - apply cubic_d0_at_1.
  - reflexivity.
  - reflexivity.
Defined.


(** Called directly with too few derivatives, [smale_alpha] fails in
    [smale_beta] with [IndexError] when [df] is empty (after evaluating
    [f]), and in [smale_gamma] with [ValueError] when [df] holds one
    derivative that returns a nonzero value (evaluated twice by then). *)
Theorem smale_alpha_short_list_errors f x0 args fx :
  f (x0 :: args) = Ok fx ->
  smale_alpha f x0 [] args =
    ([EvCall TargetF (x0 :: args)], Raise IndexError) /\
  (forall (d0 : callable) v, d0 (x0 :: args) = Ok v -> v <> C0 ->
     smale_alpha f x0 [d0] args =
     ([EvCall TargetF (x0 :: args); EvCall (Deriv 0) (x0 :: args);
       EvCall (Deriv 0) (x0 :: args)], Raise ValueError)).
Proof.
  intros Hf. split.
  - unfold smale_alpha, smale_beta.
    rewrite (bind_call_Ok _ _ _ _ _ Hf). reflexivity.
  - intros d0 v Hd Hnz. unfold smale_alpha.
    rewrite (smale_beta_run f x0 [d0] args d0 [] fx v eq_refl Hf Hd Hnz).
    unfold smale_gamma, call, getitem. simpl.
    rewrite Hd. simpl. rewrite (py_div_Ok _ _ Hnz). reflexivity.
Qed.

Lemma smale_alpha_short_list_errors_witness :
  smale_alpha cubic_f (RtoC 1) [] [RtoC 1] =
    ([EvCall TargetF [RtoC 1; RtoC 1]], Raise IndexError) /\
  (forall (d0 : callable) v, d0 [RtoC 1; RtoC 1] = Ok v -> v <> C0 ->
     smale_alpha cubic_f (RtoC 1) [d0] [RtoC 1] =
     ([EvCall TargetF [RtoC 1; RtoC 1]; EvCall (Deriv 0) [RtoC 1; RtoC 1];
       EvCall (Deriv 0) [RtoC 1; RtoC 1]], Raise ValueError)).
Proof.
  apply (smale_alpha_short_list_errors cubic_f (RtoC 1) [RtoC 1]
           (Csub (Cmul (RtoC 1) (Cmul (RtoC 1) (RtoC 1))) (RtoC 1))).
  reflexivity.
Defined.
